(** * The jsrepo rule engine and update pipeline

    A shallow embedding of [packages/cli/src/utils/rules] (the structural
    rules that validate a registry manifest, [runRules], [searchForDep]) and
    of the per-file review loop of the [update] command, with the
    properties their specification states about them. *)

From Stdlib Require Import DecimalString.
From Stdlib Require QArith.
From stdpp Require Import base list strings gmap.

Set Default Proof Using "Type".

(** ** JavaScript values the code relies on *)

(** What a call produces: a value, or a thrown exception.  A recursion that
    exhausts the call stack throws a [RangeError]; [Result.unwrap()] on an
    [Err] throws as well. *)
Inductive Exception := RangeError | UnwrapError.

Inductive outcome (A : Type) :=
  | Returned (a : A)
  | Threw (e : Exception).
Arguments Returned {A} a.
Arguments Threw {A} e.

Global Instance outcome_ret : MRet outcome := @Returned.
Global Instance outcome_bind : MBind outcome := λ A B k m,
  match m with
  | Returned a => k a
  | Threw e => Threw e
  end.

(** [for (const x of xs) acc = body(x, acc)], stopping at the first throw. *)
Fixpoint forOf {A S} (body : A → S → outcome S) (xs : list A) (acc : S)
  : outcome S :=
  match xs with
  | [] => Returned acc
  | x :: rest => acc' ← body x acc; forOf body rest acc'
  end.

(** [hay.includes(needle)] *)
Fixpoint includes (needle hay : string) : bool :=
  String.prefix needle hay ||
  match hay with
  | EmptyString => false
  | String _ rest => includes needle rest
  end.

Definition slash : Ascii.ascii := Ascii.ascii_of_nat 47.
Definition at_sign : Ascii.ascii := Ascii.ascii_of_nat 64.

(** [s.split('/')]: never empty, the empty string splits into [['']]. *)
Fixpoint split_slash (s : string) : list string :=
  match s with
  | EmptyString => [EmptyString]
  | String c rest =>
      if Ascii.eqb c slash then EmptyString :: split_slash rest
      else match split_slash rest with
           | [] => [String c EmptyString]
           | piece :: pieces => String c piece :: pieces
           end
  end.

(** [const [first, second] = dep.split('/')]: the second component is
    [undefined] when the string holds no separator. *)
Definition destructure2 (parts : list string) : string * option string :=
  (default EmptyString (head parts), parts !! 1).

(** [chain.join(' -> ')] *)
Fixpoint join_with (sep : string) (xs : list string) : string :=
  match xs with
  | [] => EmptyString
  | [x] => x
  | x :: rest => x +:+ sep +:+ join_with sep rest
  end.

(** Strings are held as the bytes of their UTF-8 encoding.  [includes] and
    [split] with an ASCII argument, and [===], agree on the bytes and on the
    code units; [trim] has to know the code points it strips. *)
Definition utf8 (bytes : list nat) : string :=
  foldr (fun byte rest => String (Ascii.ascii_of_nat byte) rest) EmptyString bytes.

(** The code points [s.trim()] strips: the WhiteSpace and LineTerminator
    productions of ECMAScript, that is U+0009 to U+000D, U+0020, U+00A0,
    U+1680, U+2000 to U+200A, U+2028, U+2029, U+202F, U+205F, U+3000 and
    U+FEFF. *)
Definition whiteSpace : list string :=
  map utf8
    [ [9]; [10]; [11]; [12]; [13]; [32];
      [194; 160];
      [225; 154; 128];
      [226; 128; 128]; [226; 128; 129]; [226; 128; 130]; [226; 128; 131];
      [226; 128; 132]; [226; 128; 133]; [226; 128; 134]; [226; 128; 135];
      [226; 128; 136]; [226; 128; 137]; [226; 128; 138];
      [226; 128; 168]; [226; 128; 169]; [226; 128; 175];
      [226; 129; 159];
      [227; 128; 128];
      [239; 187; 191] ].

(** [s] without the prefix [p], if it starts with it. *)
Fixpoint dropPrefix (p s : string) : option string :=
  match p, s with
  | EmptyString, _ => Some s
  | String a p', String b s' => if Ascii.eqb a b then dropPrefix p' s' else None
  | String _ _, EmptyString => None
  end.

(** [s] without the white space it starts with, if it starts with one of
    [spaces]. *)
Fixpoint dropSpace (spaces : list string) (s : string) : option string :=
  match spaces with
  | [] => None
  | space :: others =>
      match dropPrefix space s with
      | Some rest => Some rest
      | None => dropSpace others s
      end
  end.

(** Every white space holds a byte at least, so [rounds] as long as the
    string strip all of them. *)
Fixpoint dropSpaces (spaces : list string) (rounds : nat) (s : string) : string :=
  match rounds with
  | 0 => s
  | S rounds' =>
      match dropSpace spaces s with
      | Some rest => dropSpaces spaces rounds' rest
      | None => s
      end
  end.

Definition trimStart (s : string) : string :=
  dropSpaces whiteSpace (String.length s) s.

(** The end is trimmed on the reversed bytes, against the reversed
    encodings. *)
Definition trimEnd (s : string) : string :=
  String.rev (dropSpaces (map String.rev whiteSpace) (String.length s)
                         (String.rev s)).

(** [s.trim()] *)
Definition trim (s : string) : string := trimEnd (trimStart s).

(** [x === s] for an [x] that may be [undefined]. *)
Definition isString (x : option string) (s : string) : bool :=
  match x with
  | Some x' => String.eqb x' s
  | None => false
  end.

(** ** Numbers

    A number is a double: not a number, an infinity, or a finite value
    [mantissa * 2 ^ exponent].  Every finite double is of that form (with a
    mantissa below [2 ^ 53] and a bounded exponent; a zero of either sign has
    mantissa 0), so what holds of all of them holds of the doubles. *)
Inductive JSNumber :=
  | Finite (mantissa exponent : Z)
  | NaN
  | Infinity (negative : bool).

Definition integer (n : Z) : JSNumber := Finite n 0.

(** The value of a finite number, when it is an integer. *)
Definition integerValue (mantissa exponent : Z) : option Z :=
  if (0 <=? exponent)%Z then Some (mantissa * 2 ^ exponent)%Z
  else if (mantissa mod 2 ^ (- exponent) =? 0)%Z
       then Some (mantissa / 2 ^ (- exponent))%Z
       else None.

(** [length > limit], for the length of an array: false against [NaN], exact
    on the values otherwise. *)
Definition exceeds (length : nat) (limit : JSNumber) : bool :=
  match limit with
  | NaN => false
  | Infinity negative => negative
  | Finite mantissa exponent =>
      if (0 <=? exponent)%Z
      then (mantissa * 2 ^ exponent <? Z.of_nat length)%Z
      else (mantissa <? Z.of_nat length * 2 ^ (- exponent))%Z
  end.

(** The digits of an integer. *)
Definition showZ (n : Z) : string := NilZero.string_of_int (Z.to_int n).

(** Template-literal rendering of an array length (below [2 ^ 32]). *)
Definition showNat (n : nat) : string := showZ (Z.of_nat n).

(** Template-literal rendering of a number, [Number::toString]: the digits
    of an integer of magnitude below [2 ^ 53], where the shortest digit
    string that reads back as the number is its decimal expansion; what the
    engine prints elsewhere (fractions, exponent forms such as [-1e+21], the
    rounded digits of larger integers) is [digits]. *)
Definition showNumber (digits : Z → Z → string) (x : JSNumber) : string :=
  match x with
  | NaN => "NaN"
  | Infinity negative => if negative then "-Infinity" else "Infinity"
  | Finite mantissa exponent =>
      match integerValue mantissa exponent with
      | Some n =>
          if (Z.abs n <? 2 ^ 53)%Z then showZ n else digits mantissa exponent
      | None => digits mantissa exponent
      end
  end.

(** The value of a finite number, as a fraction. *)
Definition valueOf (mantissa exponent : Z) : QArith_base.Q :=
  if (0 <=? exponent)%Z
  then QArith_base.inject_Z (mantissa * 2 ^ exponent)
  else QArith_base.Qmake mantissa (Z.to_pos (2 ^ (- exponent))).

(** ** Manifest data model ([types.ts]) *)

(** [listed] is the block's [list] flag. *)
Record Block := {
  name : string;
  category : string;
  localDependencies : list string;
  dependencies : list string;
  devDependencies : list string;
  files : list string;
  listed : bool;
  tests : bool;
  subdirectory : bool;
}.

Record Category := {
  cname : string;
  blocks : list Block;
}.

Record Manifest := {
  categories : list Category;
}.

(** [`${block.category}/${block.name}`] *)
Definition specifier (block : Block) : string :=
  category block +:+ "/" +:+ name block.

(** [categories.find((cat) => cat.name === categoryName)
      ?.blocks.find((b) => b.name === blockName)] *)
Definition findCategory (cats : list Category) (categoryName : string)
  : option Category :=
  find (fun cat => String.eqb (cname cat) categoryName) cats.

Definition findBlock (bs : list Block) (blockName : option string)
  : option Block :=
  match blockName with
  | None => None
  | Some n => find (fun b => String.eqb (name b) n) bs
  end.

Definition findDepBlock (cats : list Category) (dep : string) : option Block :=
  let '(categoryName, blockName) := destructure2 (split_slash dep) in
  match findCategory cats categoryName with
  | None => None
  | Some cat => findBlock (blocks cat) blockName
  end.

(** ** [searchForDep]

    [stack] is the number of nested activations the call stack still has
    room for; running out of it is the [RangeError] the guard on [chain]
    is there to prevent. *)
Section SearchLoop.
Variable recurse : Block → list string → outcome (option (list string)).
Variables (search : string) (cats : list Category).
Variables (chain newChain : list string).

Fixpoint searchDeps (deps : list string) : outcome (option (list string)) :=
  match deps with
  | [] => Returned None
  | dep :: rest =>
      if String.eqb dep search then Returned (Some newChain)
      else if existsb (String.eqb dep) chain then Returned None
      else match findDepBlock cats dep with
           | None => searchDeps rest
           | Some depBlock =>
               found ← recurse depBlock newChain;
               match found with
               | Some path => Returned (Some (path ++ [search]))
               | None => searchDeps rest
               end
           end
  end.
End SearchLoop.

Fixpoint searchForDep (stack : nat) (search : string) (block : Block)
    (cats : list Category) (chain : list string)
  : outcome (option (list string)) :=
  match stack with
  | 0 => Threw RangeError
  | S stack' =>
      let newChain := chain ++ [specifier block] in
      searchDeps (fun depBlock chain' =>
                    searchForDep stack' search depBlock cats chain')
                 search cats chain newChain (localDependencies block)
  end.

(** ** The rules

    What the rules take from outside this module: chalk's styling functions,
    the glyphs of [utils/ascii], [parsePackageName] (its [Result] seen as an
    option of the parsed name), the registry configuration, which no
    check reads, and the engine's printing of the numbers that are not
    integers below [2 ^ 53] (of mantissa and exponent, see [showNumber]). *)
Class Host := {
  bold : string → string;
  red : string → string;
  gray : string → string;
  bold_red : string → string;
  VERTICAL_LINE : string;
  ERROR : string;
  WARN : string;
  parsePackageName : string → option string;
  RegistryConfig : Type;
  Number_toString : Z → Z → string;
}.

(** A rule option is [string | number]. *)
Inductive OptionValue := OptString (s : string) | OptNumber (n : JSNumber).

Inductive RuleLevel := off | warn | error.

Section Rules.
Context `{Host}.

Record CheckOptions := {
  manifest : Manifest;
  options : list OptionValue;
  config : RegistryConfig;
}.

Record Rule := {
  description : string;
  check : Block → CheckOptions → outcome (option (list string));
}.

(** [return errors.length > 0 ? errors : undefined] *)
Definition orUndefined (errors : list string) : option (list string) :=
  if 0 <? length errors then Some errors else None.

Definition no_unpinned_dependency : Rule := {|
  description := "Require all dependencies to have a pinned version.";
  check block _ :=
    let errors :=
      foldl (fun errors dep =>
               if negb (includes "@" dep)
               then errors ++ ["Couldn't find a version to use for " +:+ bold dep]
               else errors)
            [] (dependencies block ++ devDependencies block) in
    Returned (orUndefined errors)
|}.

Definition require_local_dependency_exists : Rule := {|
  description := "Require all local dependencies to exist.";
  check block opts :=
    let errors :=
      foldl (fun errors dep =>
               let '(depCategoryName, depBlockName) :=
                 destructure2 (split_slash dep) in
               let error :=
                 bold (specifier block) +:+ " depends on local dependency "
                 +:+ bold dep +:+ " which doesn't exist" in
               match find (fun cat => String.eqb (trim (cname cat))
                                                 (trim depCategoryName))
                          (categories (manifest opts)) with
               | None => errors ++ [error]
               | Some depCategory =>
                   match findBlock (blocks depCategory) depBlockName with
                   | None => errors ++ [error]
                   | Some _ => errors
                   end
               end)
            [] (localDependencies block) in
    Returned (orUndefined errors)
|}.

Definition no_category_index_file_dependency : Rule := {|
  description := "Disallow depending on the index file of a category.";
  check block opts :=
    let errors :=
      foldl (fun errors dep =>
               let '(categoryName, name) := destructure2 (split_slash dep) in
               if negb (isString name "index") then errors
               else match findCategory (categories (manifest opts))
                                       categoryName with
                    | None => errors
                    | Some category =>
                        match findBlock (blocks category) name with
                        | None => errors
                        | Some depBlock =>
                            errors ++ [bold (specifier block) +:+ " depends on "
                                       +:+ bold (categoryName +:+ "/"
                                                 +:+ default "" name)]
                        end
                    end)
            [] (localDependencies block) in
    Returned (orUndefined errors)
|}.

Definition max_local_dependencies : Rule := {|
  description :=
    "Enforces a limit on the amount of local dependencies a block can have.";
  check block opts :=
    let limit :=
      match options opts with
      | OptNumber n :: _ => n
      | _ => integer 5
      end in
    let count := length (localDependencies block) in
    let errors :=
      if exceeds count limit
      then [bold (specifier block) +:+ " has too many local dependencies ("
            +:+ bold (showNat count) +:+ ") limit ("
            +:+ bold (showNumber Number_toString limit) +:+ ")"]
      else [] in
    Returned (orUndefined errors)
|}.
Definition no_circular_dependency (stack : nat) : Rule := {|
  description := "Disallow circular dependencies.";
  check block opts :=
    let specifier := specifier block in
    chain ← searchForDep stack specifier block (categories (manifest opts)) [];
    let errors :=
      match chain with
      | Some chain =>
          ["There is a circular dependency in " +:+ bold specifier +:+ ": "
           +:+ bold (join_with " -> " chain)]
      | None => []
      end in
    Returned (orUndefined errors)
|}.

(** [for (const block of listedBlocks) { ...; if (chain) return; }] *)
Fixpoint reachedFromListed (stack : nat) (specifier : string)
    (cats : list Category) (listedBlocks : list Block) : outcome bool :=
  match listedBlocks with
  | [] => Returned false
  | block :: rest =>
      chain ← searchForDep stack specifier block cats [];
      match chain with
      | Some _ => Returned true
      | None => reachedFromListed stack specifier cats rest
      end
  end.

Definition no_unused_block (stack : nat) : Rule := {|
  description :=
    "Disallow unused blocks. (Not listed and not a dependency of another block)";
  check block opts :=
    if listed block then Returned None
    else
      let specifier := specifier block in
      let listedBlocks :=
        List.filter listed (flat_map blocks (categories (manifest opts))) in
      reached ← reachedFromListed stack specifier
                  (categories (manifest opts)) listedBlocks;
      if (reached : bool) then Returned None
      else Returned (Some [bold specifier +:+ " is unused and will be "
                           +:+ bold_red "removed"])
|}.

Definition FRAMEWORKS : list string :=
  [ "svelte"; "@sveltejs/kit";
    "vue"; "nuxt";
    "react"; "react-dom"; "next"; "@remix-run/react";
    "@angular/core"; "@angular/common"; "@angular/forms";
    "@angular/platform-browser"; "@angular/platform-browser-dynamic";
    "@angular/router";
    "@builder.io/qwik"; "astro"; "solid-js" ].

Definition no_framework_dependency : Rule := {|
  description := "Disallow frameworks (Svelte, Vue, React) as dependencies.";
  check block _ :=
    names ← forOf (fun d names =>
                     match parsePackageName d with
                     | Some n => Returned (names ++ [n])
                     | None => Threw UnwrapError
                     end)
                  (devDependencies block ++ dependencies block) [];
    let frameworkDeps :=
      List.filter (fun d => existsb (String.eqb d) FRAMEWORKS) names in
    let errors :=
      foldl (fun errors frameworkDep =>
               errors ++ [bold (specifier block) +:+ " depends on "
                          +:+ bold frameworkDep
                          +:+ " causing it to be installed when added"])
            [] frameworkDeps in
    Returned (orUndefined errors)
|}.

(** [Object.entries(rules)], in registration order. *)
Definition rules (stack : nat) : list (string * Rule) :=
  [ ("no-unpinned-dependency", no_unpinned_dependency);
    ("require-local-dependency-exists", require_local_dependency_exists);
    ("no-category-index-file-dependency", no_category_index_file_dependency);
    ("max-local-dependencies", max_local_dependencies);
    ("no-circular-dependency", no_circular_dependency stack);
    ("no-unused-block", no_unused_block stack);
    ("no-framework-dependency", no_framework_dependency) ].

(** A rule's configuration: a bare level, or [[level, option, ...options]]. *)
Inductive RuleSetting :=
  | Level (level : RuleLevel)
  | WithOptions (level : RuleLevel) (first : OptionValue)
                (rest : list OptionValue).

Definition DEFAULT_CONFIG : gmap string RuleSetting :=
  list_to_map
    [ ("no-category-index-file-dependency", Level warn);
      ("no-unpinned-dependency", Level warn);
      ("require-local-dependency-exists", Level error);
      ("max-local-dependencies", WithOptions warn (OptNumber (integer 10)) []);
      ("no-circular-dependency", Level error);
      ("no-unused-block", Level warn);
      ("no-framework-dependency", Level warn) ].

Record Report := {
  warnings : list string;
  errors : list string;
}.

(** [conf] may be [undefined], and then so is [level]. *)
Definition levelOf (conf : option RuleSetting) : option RuleLevel :=
  match conf with
  | Some (Level level) => Some level
  | Some (WithOptions level _ _) => Some level
  | None => None
  end.

Definition optionsOf (conf : option RuleSetting) : list OptionValue :=
  match conf with
  | Some (WithOptions _ first rest) => first :: rest
  | _ => []
  end.

Definition errorLine (name err : string) : string :=
  VERTICAL_LINE +:+ "  " +:+ ERROR +:+ " " +:+ red err +:+ " " +:+ gray name.

Definition warnLine (name err : string) : string :=
  VERTICAL_LINE +:+ "  " +:+ WARN +:+ " " +:+ err +:+ " " +:+ gray name.

(** The body of the innermost loop of [runRules]. *)
Definition runRule (m : Manifest) (cfg : RegistryConfig)
    (ruleConfig : gmap string RuleSetting) (block : Block)
    (entry : string * Rule) (acc : Report) : outcome Report :=
  let '(name, rule) := entry in
  let conf := ruleConfig !! name in
  let level := levelOf conf in
  let options := optionsOf conf in
  match level with
  | Some off => Returned acc
  | _ =>
      ruleErrors ← check rule block
                     {| manifest := m; options := options; config := cfg |};
      match ruleErrors with
      | None => Returned acc
      | Some ruleErrors =>
          match level with
          | Some error =>
              Returned {| warnings := warnings acc;
                          errors := errors acc ++ map (errorLine name) ruleErrors |}
          | _ =>
              Returned {| warnings := warnings acc ++ map (warnLine name) ruleErrors;
                          errors := errors acc |}
          end
      end
  end.

(** [runRules], for any table of rules. *)
Definition runRulesWith (table : list (string * Rule)) (m : Manifest)
    (cfg : RegistryConfig) (ruleConfig : gmap string RuleSetting)
  : outcome Report :=
  forOf (fun category acc =>
           forOf (fun block acc =>
                    forOf (runRule m cfg ruleConfig block) table acc)
                 (blocks category) acc)
        (categories m) {| warnings := []; errors := [] |}.

Definition runRules (stack : nat) (m : Manifest) (cfg : RegistryConfig)
    (ruleConfig : gmap string RuleSetting) : outcome Report :=
  runRulesWith (rules stack) m cfg ruleConfig.
End Rules.

(** ** The review loop of [update]

    What [_update] takes from outside: [diffLines] of the [diff] package,
    the AI rewrite [models[model].updateFile] ([None] when it throws),
    [formatFile], and [transformRemoteContent] ([None] for an [Err]). *)
Record Change := {
  value : string;
  added : bool;
  removed : bool;
  count : nat;
}.

Record File := {
  content : string;
  destPath : string;
  fileName : string;
}.

Class Collaborators := {
  diffLines : string → string → list Change;
  updateFile : string → string * string → string * string → option string;
  formatFile : string → string → string;
  transformRemoteContent : File → option string;
}.

(** The flags of [update] that the loop reads. *)
Record Options := {
  yes : bool;
  no : bool;
}.

(** What [select] resolves to: the cancel symbol or the chosen value. *)
Inductive Answer := Cancel | Choose (value : string).

(** What the user and the disk see of a run. *)
Inductive Event :=
  | Prompt (message : string)
  | ErrorLogged
  | WriteFile (path content : string).

(** The file system, the answers the user is still going to give, and the
    events so far. *)
Record Session := {
  disk : gmap string string;
  answers : list Answer;
  log : list Event;
}.

(** A step goes on, or ends the process ([process.exit(0)] after a cancel,
    [program.error]), or waits at a prompt for an answer that never comes. *)
Inductive Flow (A : Type) :=
  | Continue (a : A)
  | Exited (s : Session)
  | Failed (s : Session)
  | Awaiting (s : Session).
Arguments Continue {A} a.
Arguments Exited {A} s.
Arguments Failed {A} s.
Arguments Awaiting {A} s.

(** [changes.filter((a) => a.added || a.removed).length] *)
Definition totalChanges (changes : list Change) : nat :=
  length (List.filter (fun a => added a || removed a) changes).

Section Update.
Context `{Collaborators}.
Variable opts : Options.
Variable file : File.
Variables (from to : string).
Variables (fs : gmap string string).
Variables (localContent originalRemoteContent : string).

(** The condition under which the loop stops to ask. *)
Definition asks (remoteContent : string) : bool :=
  let changes := diffLines localContent remoteContent in
  (1 <? length changes) || String.eqb localContent "".

(** [while (true) { ... }], one iteration per call; the result is
    [(acceptedChanges, remoteContent)] at the [break]. *)
Fixpoint review (answers : list Answer) (remoteContent : string)
    (log : list Event) : Flow (bool * string * list Answer * list Event) :=
  let stopped l a := {| disk := fs; answers := a; log := l |} in
  if asks remoteContent then
    if negb (yes opts) && negb (no opts) then
      let log := log ++ [Prompt "Accept changes?"] in
      match answers with
      | [] => Awaiting (stopped log [])
      | Cancel :: rest => Exited (stopped log rest)
      | Choose confirmResult :: rest =>
          if String.eqb confirmResult "update" then
            let log := log ++ [Prompt "Select a model"] in
            match rest with
            | [] => Awaiting (stopped log [])
            | Cancel :: rest' => Exited (stopped log rest')
            | Choose model :: rest' =>
                match updateFile model (localContent, to)
                                 (originalRemoteContent, from) with
                | None => review rest' remoteContent (log ++ [ErrorLogged])
                | Some rewritten =>
                    review rest' (formatFile rewritten (destPath file)) log
                end
            end
          else
            Continue (String.eqb confirmResult "accept", remoteContent, rest, log)
      end
    else Continue (yes opts, remoteContent, answers, log)
  else Continue (yes opts, remoteContent, answers, log).
End Update.

(** [localContent]: what is at the destination, [''] if nothing is. *)
Definition readLocal (fs : gmap string string) (file : File) : string :=
  default "" (fs !! destPath file).

Section UpdateFile.
Context `{Collaborators}.
Variable opts : Options.

(** The body of [for (const file of files)]; [from] and [to] are the two
    paths shown above the diff. *)
Definition updateOneFile (from to : File → string) (file : File)
    (s : Session) : Flow Session :=
  match transformRemoteContent file with
  | None => Failed s
  | Some originalRemoteContent =>
      let decided :=
        if negb (yes opts) then
          let localContent := readLocal (disk s) file in
          review opts file (from file) (to file) (disk s) localContent
                 originalRemoteContent (answers s) originalRemoteContent (log s)
        else Continue (yes opts, originalRemoteContent, answers s, log s) in
      match decided with
      | Continue (acceptedChanges, remoteContent, answers', log') =>
          if (acceptedChanges : bool) then
            Continue {| disk := <[destPath file := remoteContent]> (disk s);
                        answers := answers';
                        log := log' ++ [WriteFile (destPath file) remoteContent] |}
          else Continue {| disk := disk s; answers := answers'; log := log' |}
      | Exited s' => Exited s'
      | Failed s' => Failed s'
      | Awaiting s' => Awaiting s'
      end
  end.

Fixpoint updateFiles (from to : File → string) (files : list File)
    (s : Session) : Flow Session :=
  match files with
  | [] => Continue s
  | file :: rest =>
      match updateOneFile from to file s with
      | Continue s' => updateFiles from to rest s'
      | stop => stop
      end
  end.
End UpdateFile.

(** ** A reference line differ

    Stands in for [diffLines] where an example has to run: lines keep their
    newline, a line both sides share is kept, and neighbouring edits of one
    kind are merged into one change, removals before additions. *)
Definition newline : Ascii.ascii := Ascii.ascii_of_nat 10.

Fixpoint tokenize (s cur : string) : list string :=
  match s with
  | EmptyString => if String.eqb cur "" then [] else [cur]
  | String c rest =>
      if Ascii.eqb c newline
      then (cur +:+ String c EmptyString) :: tokenize rest ""
      else tokenize rest (cur +:+ String c EmptyString)
  end.

Inductive Edit := Keep (line : string) | Del (line : string) | Ins (line : string).

Fixpoint edits (old new : list string) : list Edit :=
  match old with
  | [] => map Ins new
  | x :: old' =>
      (fix against (new : list string) : list Edit :=
         match new with
         | [] => map Del (x :: old')
         | y :: new' =>
             if String.eqb x y then Keep x :: edits old' new'
             else
               let removal := Del x :: edits old' (y :: new') in
               let addition := Ins y :: against new' in
               if length removal <=? length addition then removal else addition
         end) new
  end.

Definition changeOf (e : Edit) : Change :=
  match e with
  | Keep l => {| value := l; added := false; removed := false; count := 1 |}
  | Del l => {| value := l; added := false; removed := true; count := 1 |}
  | Ins l => {| value := l; added := true; removed := false; count := 1 |}
  end.

Fixpoint hunks (es : list Edit) : list Change :=
  match es with
  | [] => []
  | e :: rest =>
      let c := changeOf e in
      match hunks rest with
      | c' :: cs =>
          if Bool.eqb (added c) (added c') && Bool.eqb (removed c) (removed c')
          then {| value := value c +:+ value c'; added := added c;
                  removed := removed c; count := S (count c') |} :: cs
          else c :: c' :: cs
      | [] => [c]
      end
  end.

Definition lineDiff (old new : string) : list Change :=
  hunks (edits (tokenize old "") (tokenize new "")).

(** ** Concrete hosts and manifests for the examples *)

(** A terminal without colours; a package name is what stands before the
    first ['@'] that is not the first character. *)
Fixpoint beforeAt (s : string) : string :=
  match s with
  | EmptyString => EmptyString
  | String c rest =>
      if Ascii.eqb c at_sign then EmptyString else String c (beforeAt rest)
  end.

Definition packageName (s : string) : string :=
  match s with
  | EmptyString => EmptyString
  | String c rest => String c (beforeAt rest)
  end.

Definition plain : Host := {|
  bold := id; red := id; gray := id; bold_red := id;
  VERTICAL_LINE := "|"; ERROR := "ERROR"; WARN := "WARN";
  parsePackageName := fun d => Some (packageName d);
  RegistryConfig := unit;
  Number_toString := fun mantissa exponent =>
    showZ mantissa +:+ "*2^" +:+ showZ exponent;
|}.

Definition scripted : Collaborators := {|
  diffLines := lineDiff;
  updateFile := fun model original new => Some new.1;
  formatFile := fun content _ => content;
  transformRemoteContent := fun file => Some (content file);
|}.

Definition mkBlock (c n : string) (deps : list string) (isListed : bool) : Block :=
  {| name := n; category := c; localDependencies := deps;
     dependencies := []; devDependencies := []; files := [];
     listed := isListed; tests := false; subdirectory := false |}.

(** [lines.map((l) => l + '\n').join('')] *)
Definition unlines (ls : list string) : string :=
  foldr (fun l acc => l +:+ String newline acc) "" ls.

(** A cycle of three blocks: [cat/a -> cat/b -> cat/c -> cat/a]. *)
Definition cycleA : Block := mkBlock "cat" "a" ["cat/b"] true.
Definition cycleB : Block := mkBlock "cat" "b" ["cat/c"] true.
Definition cycleC : Block := mkBlock "cat" "c" ["cat/a"] true.
Definition threeCycle : Manifest :=
  {| categories := [{| cname := "cat"; blocks := [cycleA; cycleB; cycleC] |}] |}.

(** A listed block whose only dependency depends back on it before it
    depends on a third, unlisted block. *)
Definition appL : Block := mkBlock "cat" "l" ["cat/m"] true.
Definition appM : Block := mkBlock "cat" "m" ["cat/l"; "cat/u"] false.
Definition appU : Block := mkBlock "cat" "u" [] false.
Definition backEdge : Manifest :=
  {| categories := [{| cname := "cat"; blocks := [appL; appM; appU] |}] |}.

(** The same blocks and dependencies, the two dependencies of [cat/m] in
    the other order. *)
Definition appMReordered : Block := mkBlock "cat" "m" ["cat/u"; "cat/l"] false.
Definition backEdgeReordered : Manifest :=
  {| categories := [{| cname := "cat"; blocks := [appL; appMReordered; appU] |}] |}.

(** Three blocks that depend on themselves, and a fourth nobody uses. *)
Definition selfA : Block := mkBlock "cat" "a" ["cat/b"; "cat/a"] true.
Definition selfB : Block := mkBlock "cat" "b" ["cat/c"; "cat/b"] false.
Definition selfC : Block := mkBlock "cat" "c" ["cat/c"] false.
Definition selfU : Block := mkBlock "cat" "u" [] false.
Definition selfLoops : Manifest :=
  {| categories :=
       [{| cname := "cat"; blocks := [selfA; selfB; selfC; selfU] |}] |}.

(** The mathDiamond [math/sum -> math/add, math/mul -> math/add], with a block
    nobody depends on; a rank for its blocks. *)
Definition mathAdd : Block := mkBlock "math" "add" [] false.
Definition mathMul : Block := mkBlock "math" "mul" ["math/add"] false.
Definition mathSum : Block := mkBlock "math" "sum" ["math/add"; "math/mul"] true.
Definition mathOld : Block := mkBlock "math" "old" ["math/add"] false.
Definition mathDiamond : Manifest :=
  {| categories :=
       [{| cname := "math"; blocks := [mathAdd; mathMul; mathSum; mathOld] |}] |}.

Definition diamondRank (s : string) : nat :=
  if String.eqb s "math/add" then 0
  else if String.eqb s "math/mul" then 1
  else 2.

(** A block whose dependency resolves to the block itself without being
    its specifier. *)
Definition strayA : Block := mkBlock "cat" "a" ["cat/a/x"] true.
Definition stray : Manifest :=
  {| categories := [{| cname := "cat"; blocks := [strayA] |}] |}.

(** ** What the specification says, in its own words *)

(** The transitive local-dependency closure of a block reaches a
    specifier: the block lists it, or lists a dependency that resolves to a
    block whose closure reaches it. *)
Inductive reaches (cats : list Category) : Block → string → Prop :=
  | reaches_direct block target :
      target ∈ localDependencies block → reaches cats block target
  | reaches_step block dep depBlock target :
      dep ∈ localDependencies block →
      findDepBlock cats dep = Some depBlock →
      reaches cats depBlock target →
      reaches cats block target.

Definition allBlocks (cats : list Category) : list Block :=
  flat_map blocks cats.

(** The number of distinct block specifiers of a manifest. *)
Definition distinctSpecifiers (cats : list Category) : nat :=
  length (remove_dups (map specifier (allBlocks cats))).

(** Every local dependency that resolves is the specifier of the block it
    resolves to. *)
Definition depsNameTargets (cats : list Category) : bool :=
  forallb (fun b =>
             forallb (fun dep =>
                        match findDepBlock cats dep with
                        | Some target => String.eqb (specifier target) dep
                        | None => true
                        end)
                     (localDependencies b))
          (allBlocks cats).

(** Every block is found under its own specifier. *)
Definition specifiersResolve (cats : list Category) : bool :=
  forallb (fun b => bool_decide (is_Some (findDepBlock cats (specifier b))))
          (allBlocks cats).

(** [rank] orders the blocks so that every dependency ranks below the
    block that declares it: the local-dependency graph has no cycle. *)
Definition ranked (cats : list Category) (rank : string → nat) : bool :=
  forallb (fun b =>
             forallb (fun dep =>
                        match findDepBlock cats dep with
                        | Some target =>
                            rank (specifier target) <? rank (specifier b)
                        | None => true
                        end)
                     (localDependencies b))
          (allBlocks cats).

(** The specifiers of [universe] that are not in [seen] yet. *)
Definition unseen (universe seen : list string) : nat :=
  length (List.filter (fun u => negb (existsb (String.eqb u) seen)) universe).

(** The stack a call of [searchForDep] needs shrinks with every descent: by
    two for a specifier new to the chain, by one for the one descent into
    the block itself that the guard lets through. *)
Definition depth (cats : list Category) (block : Block) (chain : list string)
  : nat :=
  2 * unseen (remove_dups (map specifier (allBlocks cats)))
             (chain ++ [specifier block])
  + (if existsb (String.eqb (specifier block)) chain then 0 else 1).

(** The ancestors on the chain are blocks of the manifest that rank above
    the block the search stands at. *)
Definition ancestors (cats : list Category) (rank : string → nat)
    (block : Block) (chain : list string) : Prop :=
  ∀ s, s ∈ chain →
    rank (specifier block) < rank s ∧ ∃ b, b ∈ allBlocks cats ∧ specifier b = s.

(** Some listed block of the manifest reaches the specifier. *)
Definition reachedByListed (cats : list Category) (target : string) : Prop :=
  ∃ b, b ∈ allBlocks cats ∧ listed b = true ∧ reaches cats b target.

(** The options a check gets on the plain host. *)
Definition plainOptions (m : Manifest) (opts : list OptionValue)
  : @CheckOptions plain :=
  @Build_CheckOptions plain m opts tt.

(** The pin of the specification: after a package name the string goes on
    with the separator ['@'] and a version that is not empty. *)
Fixpoint versionAfter (s : string) : bool :=
  match s with
  | String c rest =>
      (Ascii.eqb c at_sign && negb (String.eqb rest "")) || versionAfter rest
  | EmptyString => false
  end.

Definition pinned (dep : string) : bool :=
  match dep with
  | String _ rest => versionAfter rest
  | EmptyString => false
  end.

Definition withDependencies (deps devDeps : list string) : Block :=
  {| name := "button"; category := "ui"; localDependencies := [];
     dependencies := deps; devDependencies := devDeps; files := [];
     listed := true; tests := false; subdirectory := false |}.

(** The dependency the specification forbids: on a block named [index] of
    the block's own category. *)
Definition ownIndexDependency (block : Block) : bool :=
  existsb (fun dep =>
             let '(categoryName, name) := destructure2 (split_slash dep) in
             String.eqb categoryName (category block) && isString name "index")
          (localDependencies block).

(** The dependency the rule reports: on a block named [index] that the
    manifest has, in whichever category. *)
Definition indexDependency (cats : list Category) (dep : string) : bool :=
  let '(categoryName, name) := destructure2 (split_slash dep) in
  isString name "index" &&
  match findCategory cats categoryName with
  | None => false
  | Some category =>
      match findBlock (blocks category) name with
      | None => false
      | Some _ => true
      end
  end.

(** A block of [utils] that depends on the index of [ui]. *)
Definition uiIndex : Block := mkBlock "ui" "index" [] true.
Definition utilsMath : Block := mkBlock "utils" "math" ["ui/index"] true.
Definition crossIndex : Manifest :=
  {| categories := [{| cname := "ui"; blocks := [uiIndex] |};
                    {| cname := "utils"; blocks := [utilsMath] |}] |}.

(** A block with three local dependencies. *)
Definition threeDeps : Block :=
  mkBlock "ui" "form" ["ui/button"; "ui/input"; "ui/label"] true.

(** The table with the check of the rule [name] replaced, and the table
    without that rule. *)
Definition withCheck `{Host} (name : string)
    (chk : Block → CheckOptions → outcome (option (list string)))
    (table : list (string * Rule)) : list (string * Rule) :=
  map (fun entry : string * Rule =>
         if String.eqb entry.1 name
         then (entry.1, {| description := description entry.2; check := chk |})
         else entry)
      table.

Definition without `{Host} (name : string) (table : list (string * Rule))
  : list (string * Rule) :=
  List.filter (fun entry : string * Rule => negb (String.eqb entry.1 name)) table.

(** A check that throws whenever it is called. *)
Definition throwing `{Host} : Block → CheckOptions → outcome (option (list string)) :=
  fun _ _ => Threw RangeError.

Definition circularOff : gmap string RuleSetting :=
  <["no-circular-dependency" := Level off]> DEFAULT_CONFIG.

Definition plainConfig : @RegistryConfig plain := tt.

(** The answers of a user who asks for an AI rewrite by each of [models]
    in turn, and the candidate content those rounds lead to, with the
    events they leave; [None] if the loop stops asking on the way. *)
Definition rewriteAnswers (models : list string) : list Answer :=
  flat_map (fun model => [Choose "update"; Choose model]) models.

Fixpoint rewritten `{Collaborators} (file : File) (from to : string)
    (localContent originalRemoteContent : string) (models : list string)
    (remoteContent : string) : option (string * list Event) :=
  match models with
  | [] => Some (remoteContent, [])
  | model :: rest =>
      if asks localContent remoteContent then
        let '(next, failed) :=
          match updateFile model (localContent, to) (originalRemoteContent, from) with
          | None => (remoteContent, [ErrorLogged])
          | Some text => (formatFile text (destPath file), [])
          end in
        match rewritten file from to localContent originalRemoteContent rest next with
        | Some (candidate, events) =>
            Some (candidate,
                  [Prompt "Accept changes?"; Prompt "Select a model"]
                  ++ failed ++ events)
        | None => None
        end
      else None
  end.

(** One file of the block, and the paths shown above its diff. *)
Definition buttonFile (remote : string) : File :=
  {| content := remote; destPath := "src/ui/button.ts"; fileName := "button.ts" |}.
Definition shownFrom (file : File) : string := "github/acme/ui/" +:+ fileName file.
Definition shownTo (file : File) : string := destPath file.

Definition interactive : Options := {| yes := false; no := false |}.

Definition onDisk (local : string) : gmap string string :=
  {["src/ui/button.ts" := local]}.

(** A local file of one line whose remote counterpart is empty. *)
Definition oneLine : string := unlines ["export const a = 1;"].
Definition emptiedFile : File := buttonFile "".
Definition emptiedSession : Session :=
  {| disk := onDisk oneLine; answers := [Choose "accept"]; log := [] |}.
Definition emptiedChange : Change :=
  {| value := oneLine; added := false; removed := true; count := 1 |}.

(** The local [a, b] against the remote [a, c], reviewed after one round
    of AI rewrite. *)
Definition localAB : string := unlines ["a"; "b"].
Definition remoteAC : string := unlines ["a"; "c"].
Definition fileAC : File := buttonFile remoteAC.
Definition oneRound : list Event :=
  [Prompt "Accept changes?"; Prompt "Select a model"].
Definition sonnet : list string := ["Claude 3.5 Sonnet"].

(** ** Further definitions of the rules module *)

(** [isDependedOn]: the loops over the categories and their blocks, with
    the [return true] that leaves both. *)
Fixpoint dependedOnBy (stack : nat) (specifier : string) (cats : list Category)
    (bs : list Block) (otherwise : outcome bool) : outcome bool :=
  match bs with
  | [] => otherwise
  | block :: rest =>
      if negb (listed block) then dependedOnBy stack specifier cats rest otherwise
      else
        chain ← searchForDep stack specifier block cats [];
        match chain with
        | Some _ => Returned true
        | None => dependedOnBy stack specifier cats rest otherwise
        end
  end.

Fixpoint isDependedOnFrom (stack : nat) (specifier : string)
    (cats remaining : list Category) : outcome bool :=
  match remaining with
  | [] => Returned false
  | category :: rest =>
      dependedOnBy stack specifier cats (blocks category)
                   (isDependedOnFrom stack specifier cats rest)
  end.

Definition isDependedOn (stack : nat) (specifier : string) (cats : list Category)
  : outcome bool :=
  isDependedOnFrom stack specifier cats cats.

(** What [require-local-dependency-exists] looks for: a category whose
    trimmed name is the trimmed first component, holding a block named by
    the second. *)
Definition dependencyExists (cats : list Category) (dep : string) : bool :=
  let '(depCategoryName, depBlockName) := destructure2 (split_slash dep) in
  match find (fun cat => String.eqb (trim (cname cat)) (trim depCategoryName))
             cats with
  | None => false
  | Some depCategory =>
      match findBlock (blocks depCategory) depBlockName with
      | None => false
      | Some _ => true
      end
  end.

(** [FRAMEWORKS.has(d)] *)
Definition isFramework (d : string) : bool :=
  existsb (String.eqb d) FRAMEWORKS.

(** What a check that was called contributes: its messages, if it
    returned some. *)
Definition reported (r : outcome (option (list string))) : list string :=
  match r with
  | Returned (Some errs) => errs
  | _ => []
  end.

(** The lines one rule adds for one block to the warnings, and to the
    errors. *)
Definition warningsOf `{Host} (m : Manifest) (cfg : RegistryConfig)
    (ruleConfig : gmap string RuleSetting) (block : Block)
    (entry : string * Rule) : list string :=
  let conf := ruleConfig !! entry.1 in
  match levelOf conf with
  | Some off | Some error => []
  | _ => map (warnLine entry.1)
             (reported (check entry.2 block
                          {| manifest := m; options := optionsOf conf; config := cfg |}))
  end.

Definition errorsOf `{Host} (m : Manifest) (cfg : RegistryConfig)
    (ruleConfig : gmap string RuleSetting) (block : Block)
    (entry : string * Rule) : list string :=
  let conf := ruleConfig !! entry.1 in
  match levelOf conf with
  | Some error =>
      map (errorLine entry.1)
          (reported (check entry.2 block
                       {| manifest := m; options := optionsOf conf; config := cfg |}))
  | _ => []
  end.

(** A configuration that turns every rule off. *)
Definition allOff : gmap string RuleSetting :=
  list_to_map
    [ ("no-category-index-file-dependency", Level off);
      ("no-unpinned-dependency", Level off);
      ("require-local-dependency-exists", Level off);
      ("max-local-dependencies", WithOptions off (OptNumber (integer 10)) []);
      ("no-circular-dependency", Level off);
      ("no-unused-block", Level off);
      ("no-framework-dependency", Level off) ].

(** A manifest with a dependency on a block that is not there, one
    spelled without a separator, and a category whose name carries a
    space. *)
Definition looseForm : Block :=
  mkBlock "ui" "form" ["ui/button"; "ui/missing"; "button"; " ui /button"] true.
Definition looseButton : Block := mkBlock "ui" "button" [] true.
Definition loose : Manifest :=
  {| categories := [{| cname := "ui "; blocks := [looseForm; looseButton] |}] |}.

(** A category whose name starts with a no-break space (U+00A0). *)
Definition nbsp : string := utf8 [194; 160].
Definition paddedForm : Block := mkBlock "ui" "form" ["ui/button"] true.
Definition padded : Manifest :=
  {| categories := [{| cname := nbsp +:+ "ui"; blocks := [paddedForm; looseButton] |}] |}.

(** A block that depends on two frameworks and on a package that is
    none. *)
Definition frameworkUser : Block :=
  {| name := "counter"; category := "ui"; localDependencies := [];
     dependencies := ["react@18.0.0"; "lodash@4.17.21"];
     devDependencies := ["@sveltejs/kit@2.0.0"]; files := [];
     listed := true; tests := false; subdirectory := false |}.

(** A block with six local dependencies. *)
Definition sixDeps : Block :=
  mkBlock "ui" "page" ["ui/a"; "ui/b"; "ui/c"; "ui/d"; "ui/e"; "ui/f"] true.

(** No category name carries white space at its ends. *)
Definition namesTrimmed (cats : list Category) : bool :=
  forallb (fun cat => String.eqb (trim (cname cat)) (cname cat)) cats.

(** The first component of a dependency, as [split('/')] gives it. *)
Definition categoryPart (dep : string) : string :=
  (destructure2 (split_slash dep)).1.

(** A check that is called for the block returns. *)
Definition calm `{Host} (m : Manifest) (cfg : RegistryConfig)
    (ruleConfig : gmap string RuleSetting) (block : Block)
    (entry : string * Rule) : bool :=
  let conf := ruleConfig !! entry.1 in
  match levelOf conf with
  | Some off => true
  | _ =>
      match check entry.2 block
              {| manifest := m; options := optionsOf conf; config := cfg |} with
      | Returned _ => true
      | Threw _ => false
      end
  end.

(** The checks of a table return for all the blocks of some categories. *)
Definition calmOn `{Host} (m : Manifest) (cfg : RegistryConfig)
    (ruleConfig : gmap string RuleSetting) (table : list (string * Rule))
    (cats : list Category) : bool :=
  forallb (fun category =>
             forallb (fun block => forallb (calm m cfg ruleConfig block) table)
                     (blocks category))
          cats.

(** No rule of the table is configured as an error; every rule of the
    table is off. *)
Definition noErrorLevel `{Host} (ruleConfig : gmap string RuleSetting)
    (table : list (string * Rule)) : bool :=
  forallb (fun entry : string * Rule =>
             match levelOf (ruleConfig !! entry.1) with
             | Some error => false
             | _ => true
             end) table.

Definition everyRuleOff `{Host} (ruleConfig : gmap string RuleSetting)
    (table : list (string * Rule)) : bool :=
  forallb (fun entry : string * Rule =>
             match levelOf (ruleConfig !! entry.1) with
             | Some off => true
             | _ => false
             end) table.

(** ** Further definitions of the update command *)

(** The session a run of the loop ends in. *)
Definition sessionOf (flow : Flow Session) : Session :=
  match flow with
  | Continue s => s
  | Exited s => s
  | Failed s => s
  | Awaiting s => s
  end.

(** The disk after every file got its content, and the writes that this
    leaves in the log. *)
Definition store (fs : gmap string string) (files : list File)
    (contents : list string) : gmap string string :=
  foldl (fun fs' '(file, text) => <[destPath file := text]> fs')
        fs (zip files contents).

Definition writes (files : list File) (contents : list string) : list Event :=
  zip_with (fun file text => WriteFile (destPath file) text) files contents.

(** No file of the list is written to [path]. *)
Definition writesElsewhere (path : string) (files : list File) : bool :=
  forallb (fun file => negb (String.eqb (destPath file) path)) files.

(** [deps.add(dep)] on a [Set<string>], kept in insertion order. *)
Definition setAdd (dep : string) (set : list string) : list string :=
  if bool_decide (dep ∈ set) then set else set ++ [dep].

(** The sets [deps] and [devDeps] of [_update]. *)
Record Wanted := {
  depsSet : list string;
  devDepsSet : list string;
}.

(** What [_update] does for a block after its files: it asks for
    [vitest] when tests are included, the block has tests and
    [package.json] declares no [vitest] dev dependency ([vitestMissing]),
    then adds the block's dev dependencies and dependencies. *)
Definition wantBlock (includeTests vitestMissing : bool) (w : Wanted)
    (block : Block) : Wanted :=
  let devDepsSet :=
    if includeTests && tests block
    then (if vitestMissing then setAdd "vitest" (devDepsSet w) else devDepsSet w)
    else devDepsSet w in
  {| depsSet := foldl (fun set dep => setAdd dep set) (depsSet w) (dependencies block);
     devDepsSet := foldl (fun set dep => setAdd dep set) devDepsSet (devDependencies block) |}.

Definition wantBlocks (includeTests vitestMissing : bool) (bs : list Block) : Wanted :=
  foldl (wantBlock includeTests vitestMissing) {| depsSet := []; devDepsSet := [] |} bs.

(** Two blocks that share a dependency, one of them with tests. *)
Definition chartBlock : Block :=
  {| name := "chart"; category := "ui"; localDependencies := [];
     dependencies := ["d3@7.0.0"; "lodash@4.17.21"];
     devDependencies := ["typescript@5.0.0"]; files := ["chart.ts"; "chart.test.ts"];
     listed := true; tests := true; subdirectory := false |}.
Definition tableBlock : Block :=
  {| name := "table"; category := "ui"; localDependencies := [];
     dependencies := ["lodash@4.17.21"];
     devDependencies := ["typescript@5.0.0"; "vitest"]; files := ["table.ts"];
     listed := true; tests := false; subdirectory := false |}.

(** A second file of the block, and the flags of a run that writes
    without asking and of one that only shows the diff. *)
Definition inputFile (remote : string) : File :=
  {| content := remote; destPath := "src/ui/input.ts"; fileName := "input.ts" |}.
Definition yesToAll : Options := {| yes := true; no := false |}.
Definition diffOnly : Options := {| yes := false; no := true |}.

(** A rewrite service that is down. *)
Definition offline : Collaborators := {|
  diffLines := lineDiff;
  updateFile := fun _ _ _ => None;
  formatFile := fun text _ => text;
  transformRemoteContent := fun file => Some (content file);
|}.

(** ** Prompts that are answered by yes or no, or by a text

    What [confirm] resolves to is a boolean, what [text], [password] and
    [select] resolve to is a string, and each of them may resolve to the
    cancel symbol. *)
Inductive Reply := Canceled | Said (response : bool) | Typed (response : string).

(** How a command ends: it runs to its end, the process exits ([Quit]:
    after a cancel, or after [program.error] reported a failure), it waits
    at a prompt that the replies do not answer, or it throws. *)
Inductive Ended (A : Type) :=
  | Done (a : A)
  | Quit (a : A)
  | Unanswered (a : A)
  | Crashed.
Arguments Done {A} a.
Arguments Quit {A} a.
Arguments Unanswered {A} a.
Arguments Crashed {A}.

Definition stateOf {A} (otherwise : A) (e : Ended A) : A :=
  match e with
  | Done a | Quit a | Unanswered a => a
  | Crashed => otherwise
  end.

(** ** The end of [_update]: installing the dependencies

    [installDependencies] is the collaborator that runs the package
    manager; it tells whether it succeeded. *)
Record Installation := {
  asked : bool;
  invoked : list (bool * list string);
  remaining : list Reply;
}.

Section Install.
Variable installDependencies : bool → list string → bool.
Variable opts : Options.

(** [await installDependencies({ pm, deps, dev, cwd })]: the call, with the
    [dev] flag and the packages it is given, is entered in [invoked]; an
    [Err] goes to [program.error], which ends the process. *)
Definition invoke (dev : bool) (packages : list string) (run : Installation)
  : Ended Installation :=
  let run' := {| asked := asked run;
                 invoked := invoked run ++ [(dev, packages)];
                 remaining := remaining run |} in
  if installDependencies dev packages then Done run' else Quit run'.

(** [if (install) { ... }]: the dependencies first, then the dev
    dependencies, each only if there are some. *)
Definition installBoth (w : Wanted) (run : Installation) : Ended Installation :=
  match (if 0 <? length (depsSet w) then invoke false (depsSet w) run
         else Done run) with
  | Done run' =>
      if 0 <? length (devDepsSet w) then invoke true (devDepsSet w) run'
      else Done run'
  | ended => ended
  end.

(** [if (hasDependencies) { let install = options.yes; ... }] on what
    [returnShouldInstall] left of the dependencies. *)
Definition installStep (w : Wanted) (replies : list Reply) : Ended Installation :=
  let hasDependencies := (0 <? length (depsSet w)) || (0 <? length (devDepsSet w)) in
  if hasDependencies then
    if negb (yes opts) && negb (no opts) then
      match replies with
      | [] => Unanswered {| asked := true; invoked := []; remaining := [] |}
      | Canceled :: rest => Quit {| asked := true; invoked := []; remaining := rest |}
      | Said result :: rest =>
          if result
          then installBoth w {| asked := true; invoked := []; remaining := rest |}
          else Done {| asked := true; invoked := []; remaining := rest |}
      | Typed _ :: _ =>
          Unanswered {| asked := true; invoked := []; remaining := replies |}
      end
    else if yes opts
         then installBoth w {| asked := false; invoked := []; remaining := replies |}
         else Done {| asked := false; invoked := []; remaining := replies |}
  else Done {| asked := false; invoked := []; remaining := replies |}.
End Install.

(** An installer that fails whatever it is given, and what a run wants
    when only a dev dependency is missing. *)
Definition failing : bool → list string → bool := fun _ _ => false.
Definition onlyVitest : Wanted :=
  {| depsSet := []; devDepsSet := ["vitest"] |}.

(** ** The [auth] command

    [storage] is the persisted store of tokens; [providers] are the names
    of the registry providers and [http] the name of the one without
    tokens. *)
Record AuthOptions := {
  token : option string;
  provider : option string;
  logout : bool;
}.

Section Auth.
Variables (providers : list string) (http : string).

(** [providers.filter((p) => p.name !== http.name)] *)
Definition authProviders : list string :=
  List.filter (fun p => negb (String.eqb p http)) providers.

Definition tokenKey (provider : string) : string := provider +:+ "-token".

(** [for (const provider of authProviders) { ... }] of the logout. *)
Fixpoint logoutEach (ps : list string) (storage : gmap string string)
    (replies : list Reply) : Ended (gmap string string * list Reply) :=
  match ps with
  | [] => Done (storage, replies)
  | provider :: rest =>
      match storage !! tokenKey provider with
      | None => logoutEach rest storage replies
      | Some _ =>
          match replies with
          | [] => Unanswered (storage, [])
          | Canceled :: replies' => Quit (storage, replies')
          | Said response :: replies' =>
              if response
              then logoutEach rest (delete (tokenKey provider) storage) replies'
              else logoutEach rest storage replies'
          | Typed _ :: _ => Unanswered (storage, replies)
          end
      end
  end.

Definition _auth (options : AuthOptions) (storage : gmap string string)
    (replies : list Reply) : Ended (gmap string string * list Reply) :=
  if logout options then logoutEach authProviders storage replies
  else
    let chosen : Ended (string * list Reply) :=
      if 1 <? length authProviders then
        match replies with
        | [] => Unanswered (EmptyString, [])
        | Canceled :: rest => Quit (EmptyString, rest)
        | Typed response :: rest => Done (response, rest)
        | Said _ :: _ => Unanswered (EmptyString, replies)
        end
      else
        match authProviders with
        | first :: _ => Done (first, replies)
        | [] => Crashed
        end in
    match chosen with
    | Done (provider, replies) =>
        match token options with
        | Some given => Done (<[tokenKey provider := given]> storage, replies)
        | None =>
            match replies with
            | [] => Unanswered (storage, [])
            | Canceled :: rest => Quit (storage, rest)
            | Typed response :: rest =>
                if String.eqb response "" then Quit (storage, rest)
                else Done (<[tokenKey provider := response]> storage, rest)
            | Said _ :: _ => Unanswered (storage, replies)
            end
        end
    | Quit (_, replies) => Quit (storage, replies)
    | Unanswered (_, replies) => Unanswered (storage, replies)
    | Crashed => Crashed
    end.
End Auth.

(** The providers of the registry, and a store with two tokens and the
    token of a custom domain. *)
Definition registryProviders : list string :=
  ["github"; "gitlab"; "bitbucket"; "azure"; "http"].

Definition someTokens : gmap string string :=
  list_to_map [("github-token", "ghp_1"); ("gitlab-token", "glpat_2");
               ("http-token", "custom")].

(** ** [init]: the directories of a registry *)

(** The [while (true)] loop of [_initRegistry] that asks for the blocks
    directories: it asks whether to add another once there is one. *)
Fixpoint askDirs (dirs : list string) (replies : list Reply)
  : Ended (list string * list Reply) :=
  match replies with
  | [] => Unanswered (dirs, [])
  | reply :: rest =>
      if 0 <? length dirs then
        match reply with
        | Canceled => Quit (dirs, rest)
        | Said false => Done (dirs, rest)
        | Said true =>
            match rest with
            | [] => Unanswered (dirs, [])
            | Canceled :: rest' => Quit (dirs, rest')
            | Typed response :: rest' => askDirs (dirs ++ [response]) rest'
            | Said _ :: _ => Unanswered (dirs, rest)
            end
        | Typed _ => Unanswered (dirs, replies)
        end
      else
        match reply with
        | Canceled => Quit (dirs, rest)
        | Typed response => askDirs (dirs ++ [response]) rest
        | Said _ => Unanswered (dirs, replies)
        end
  end.

(** * Properties *)

(** ** Strings, lists and loops *)

Lemma eqb_true (a b : string) : String.eqb a b = true ↔ a = b.
Proof. apply String.eqb_eq. Qed.

Lemma eqb_false (a b : string) : String.eqb a b = false ↔ a ≠ b.
Proof. apply String.eqb_neq. Qed.

Lemma dropPrefix_length p s rest :
  dropPrefix p s = Some rest → String.length s = String.length p + String.length rest.
Proof.
  revert s. induction p as [|a p IH]; intros [|b s]; simpl; try discriminate.
  - by intros [= <-].
  - by intros [= <-].
  - destruct (Ascii.eqb a b); [|discriminate]. intros Hrest. by rewrite (IH s).
Qed.

Lemma dropSpace_shorter spaces s rest :
  Forall (fun space => space ≠ EmptyString) spaces →
  dropSpace spaces s = Some rest → String.length rest < String.length s.
Proof.
  induction 1 as [|space others Hspace _ IH]; simpl; [discriminate|].
  destruct (dropPrefix space s) as [rest'|] eqn:Hdrop; [|done].
  intros [= <-]. apply dropPrefix_length in Hdrop.
  destruct space; [done|]. simpl in Hdrop. lia.
Qed.

(** The rounds [trimStart] and [trimEnd] allow are enough: what is left
    starts with no white space. *)
Lemma dropSpaces_done spaces :
  Forall (fun space => space ≠ EmptyString) spaces →
  ∀ rounds s, String.length s ≤ rounds →
              dropSpace spaces (dropSpaces spaces rounds s) = None.
Proof.
  intros Hspaces. induction rounds as [|rounds IH]; intros s Hlen; simpl.
  - destruct (dropSpace spaces s) as [rest|] eqn:Hdrop; [|done].
    apply dropSpace_shorter in Hdrop; [lia|done].
  - destruct (dropSpace spaces s) as [rest|] eqn:Hdrop; [|done].
    apply IH. apply dropSpace_shorter in Hdrop; [lia|done].
Qed.

Lemma whiteSpace_not_empty :
  Forall (fun space => space ≠ EmptyString) whiteSpace ∧
  Forall (fun space => space ≠ EmptyString) (map String.rev whiteSpace).
Proof. split; repeat constructor; discriminate. Qed.

(** After [trimStart] no white space is left at the start, after [trimEnd]
    none at the end. *)
Lemma trimStart_done s : dropSpace whiteSpace (trimStart s) = None.
Proof. apply dropSpaces_done; [apply whiteSpace_not_empty|done]. Qed.

Lemma rev_app_rev_app s1 : ∀ s2 s3,
  String.rev_app (String.rev_app s1 s2) s3 = String.rev_app s2 (s1 +:+ s3).
Proof. induction s1 as [|a s1 IH]; intros s2 s3; simpl; [done|]. by rewrite IH. Qed.

Lemma app_empty_r (s : string) : s +:+ "" = s.
Proof.
  induction s as [|a s IH]; [done|].
  change (String a s +:+ "") with (String a (s +:+ "")). by rewrite IH.
Qed.

Lemma rev_rev s : String.rev (String.rev s) = s.
Proof. unfold String.rev. rewrite rev_app_rev_app. apply app_empty_r. Qed.

Lemma rev_app_length s1 : ∀ s2,
  String.length (String.rev_app s1 s2) = String.length s1 + String.length s2.
Proof. induction s1 as [|a s1 IH]; intros s2; simpl; [done|]. rewrite IH. simpl. lia. Qed.

Lemma trimEnd_done s :
  dropSpace (map String.rev whiteSpace) (String.rev (trimEnd s)) = None.
Proof.
  unfold trimEnd. rewrite rev_rev.
  apply dropSpaces_done; [apply whiteSpace_not_empty|].
  unfold String.rev. rewrite rev_app_length. simpl. lia.
Qed.

Lemma includes_elem (x : string) (xs : list string) :
  existsb (String.eqb x) xs = true ↔ x ∈ xs.
Proof.
  induction xs as [|y ys IH]; simpl.
  - split; [discriminate | intros Hin; inversion Hin].
  - rewrite orb_true_iff, IH, eqb_true, elem_of_cons. reflexivity.
Qed.

Lemma includes_not_elem (x : string) (xs : list string) :
  existsb (String.eqb x) xs = false ↔ x ∉ xs.
Proof.
  rewrite <- includes_elem. destruct (existsb _ xs); split; congruence.
Qed.

Lemma find_elem {A} (p : A → bool) (xs : list A) (x : A) :
  find p xs = Some x → x ∈ xs ∧ p x = true.
Proof.
  intros Hf. apply find_some in Hf as [Hin Hp].
  split; [by apply list_elem_of_In | done].
Qed.

Lemma findDepBlock_elem cats dep b :
  findDepBlock cats dep = Some b → b ∈ allBlocks cats.
Proof.
  unfold findDepBlock, findCategory, findBlock, allBlocks.
  destruct (destructure2 (split_slash dep)) as [categoryName blockName].
  destruct (find _ cats) as [cat|] eqn:Hcat; [|discriminate].
  destruct blockName as [n|]; [|discriminate].
  intros Hb. apply find_elem in Hcat as [Hcat _]. apply find_elem in Hb as [Hb _].
  apply list_elem_of_In, in_flat_map. exists cat.
  split; by apply list_elem_of_In.
Qed.

Lemma forallb_elem {A} (p : A → bool) (xs : list A) :
  forallb p xs = true ↔ ∀ x, x ∈ xs → p x = true.
Proof.
  rewrite forallb_forall. split; intros Hp x Hx; apply Hp; by apply list_elem_of_In.
Qed.

(** ** [searchForDep] *)

Lemma searchForDep_unfold stack search block cats chain :
  searchForDep (S stack) search block cats chain =
  searchDeps (fun depBlock chain' => searchForDep stack search depBlock cats chain')
             search cats chain (chain ++ [specifier block])
             (localDependencies block).
Proof. reflexivity. Qed.

(** A path that [searchForDep] returns exists: the start block's closure
    reaches the specifier searched for. *)
Lemma searchForDep_sound cats search :
  ∀ stack block chain path,
    searchForDep stack search block cats chain = Returned (Some path) →
    reaches cats block search.
Proof.
  induction stack as [|stack IH]; intros block chain path; [discriminate|].
  rewrite searchForDep_unfold.
  assert (Hloop : ∀ deps,
    (∀ dep, dep ∈ deps → dep ∈ localDependencies block) →
    searchDeps (fun depBlock chain' => searchForDep stack search depBlock cats chain')
      search cats chain (chain ++ [specifier block]) deps = Returned (Some path) →
    reaches cats block search).
  { induction deps as [|dep rest IHdeps]; intros Hsub; simpl; [discriminate|].
    assert (Hdep : dep ∈ localDependencies block) by (apply Hsub; left).
    assert (Hrest : ∀ d, d ∈ rest → d ∈ localDependencies block)
      by (intros d Hd; apply Hsub; by right).
    destruct (String.eqb dep search) eqn:Heq.
    - apply eqb_true in Heq as ->. intros _. by apply reaches_direct.
    - destruct (existsb _ chain); [discriminate|].
      destruct (findDepBlock cats dep) as [depBlock|] eqn:Hfind; [|by apply IHdeps].
      destruct (searchForDep stack search depBlock cats _) as [[found|]|e] eqn:Hrec;
        simpl; [| by apply IHdeps | discriminate].
      intros _. eapply reaches_step; eauto. }
  apply Hloop. auto.
Qed.

(** The shape of every path [searchForDep] returns: the chain it was
    given, the start block, the blocks it descended into, and then the
    specifier searched for once per descent. *)
Lemma searchForDep_path_shape cats search :
  ∀ stack block chain path,
    searchForDep stack search block cats chain = Returned (Some path) →
    ∃ hops, path = chain ++ [specifier block] ++ hops ++ repeat search (length hops).
Proof.
  induction stack as [|stack IH]; intros block chain path; [discriminate|].
  rewrite searchForDep_unfold.
  generalize (localDependencies block) as deps.
  induction deps as [|dep rest IHdeps]; simpl; [discriminate|].
  destruct (String.eqb dep search).
  { intros [= <-]. by exists []. }
  destruct (existsb _ chain); [discriminate|].
  destruct (findDepBlock cats dep) as [depBlock|]; [|done].
  destruct (searchForDep stack search depBlock cats _) as [[found|]|e] eqn:Hrec;
    simpl; [|done|discriminate].
  intros [= <-]. destruct (IH _ _ _ Hrec) as [hops ->].
  exists (specifier depBlock :: hops). simpl.
  rewrite <- !app_assoc. simpl. do 3 f_equal.
  by rewrite <- app_assoc, repeat_cons.
Qed.

(** On a cycle of two blocks the chain closes on the start, once. *)
Lemma searchForDep_two_block_cycle cats (A B : Block) rest k :
  localDependencies A = [specifier B] →
  localDependencies B = specifier A :: rest →
  specifier A ≠ specifier B →
  findDepBlock cats (specifier B) = Some B →
  searchForDep (2 + k) (specifier A) A cats [] =
    Returned (Some [specifier A; specifier B; specifier A]).
Proof.
  intros HA HB Hne Hfind. simpl. rewrite HA. simpl.
  assert (String.eqb (specifier B) (specifier A) = false) as ->
    by (apply eqb_false; congruence).
  rewrite Hfind. simpl. rewrite HB. simpl.
  by rewrite String.eqb_refl.
Qed.

Lemma unseen_snoc_le universe seen x :
  unseen universe (seen ++ [x]) ≤ unseen universe seen.
Proof.
  unfold unseen. induction universe as [|u us IH]; simpl; [lia|].
  rewrite existsb_app. simpl.
  destruct (existsb (String.eqb u) seen); simpl; [lia|].
  destruct (String.eqb u x); simpl; lia.
Qed.

Lemma unseen_snoc_lt universe seen x :
  x ∈ universe → x ∉ seen → unseen universe (seen ++ [x]) < unseen universe seen.
Proof.
  intros Hin Hnot. unfold unseen.
  induction universe as [|u us IH]; [inversion Hin|].
  pose proof (unseen_snoc_le us seen x) as Hle. unfold unseen in Hle.
  simpl. rewrite existsb_app. simpl.
  destruct (decide (u = x)) as [->|Hne].
  - apply includes_not_elem in Hnot. rewrite Hnot, String.eqb_refl. simpl. lia.
  - apply elem_of_cons in Hin as [->|Hin]; [done|]. specialize (IH Hin).
    destruct (existsb (String.eqb u) seen); simpl; [lia|].
    destruct (String.eqb u x); simpl; lia.
Qed.

Lemma unseen_snoc_seen universe seen x :
  x ∈ seen → unseen universe (seen ++ [x]) = unseen universe seen.
Proof.
  intros Hin. unfold unseen. f_equal. apply filter_ext. intros u.
  rewrite existsb_app. simpl. rewrite orb_false_r.
  destruct (existsb (String.eqb u) seen) eqn:Hs; [done|]. simpl.
  destruct (String.eqb u x) eqn:Hux; [|done].
  apply eqb_true in Hux as ->. apply includes_elem in Hin. congruence.
Qed.

Lemma unseen_nil universe : unseen universe [] = length universe.
Proof.
  unfold unseen. induction universe as [|u us IH]; [done|].
  simpl in *. by f_equal.
Qed.

Lemma specifier_in_universe cats b :
  b ∈ allBlocks cats → specifier b ∈ remove_dups (map specifier (allBlocks cats)).
Proof. intros Hb. apply elem_of_remove_dups, list_elem_of_fmap. eauto. Qed.

Lemma depsNameTargets_spec cats b dep target :
  depsNameTargets cats = true → b ∈ allBlocks cats →
  dep ∈ localDependencies b → findDepBlock cats dep = Some target →
  specifier target = dep.
Proof.
  intros Hwf Hb Hdep Hfind. unfold depsNameTargets in Hwf.
  rewrite forallb_elem in Hwf. specialize (Hwf b Hb).
  rewrite forallb_elem in Hwf. specialize (Hwf dep Hdep).
  rewrite Hfind in Hwf. by apply eqb_true.
Qed.

(** A descent needs strictly less stack than the call it comes from. *)
Lemma depth_descent cats block chain dep depBlock :
  depsNameTargets cats = true → block ∈ allBlocks cats →
  dep ∈ localDependencies block → dep ∉ chain →
  findDepBlock cats dep = Some depBlock →
  depth cats depBlock (chain ++ [specifier block]) < depth cats block chain.
Proof.
  intros Hwf Hb Hdep Hnot Hfind.
  pose proof (depsNameTargets_spec _ _ _ _ Hwf Hb Hdep Hfind) as Hspec.
  pose proof (findDepBlock_elem _ _ _ Hfind) as Htarget.
  apply specifier_in_universe in Htarget. rewrite Hspec in Htarget.
  unfold depth. rewrite Hspec. set (U := remove_dups _) in *.
  apply includes_not_elem in Hnot as Hchain.
  destruct (decide (dep = specifier block)) as [->|Hne].
  - rewrite Hchain. rewrite existsb_app. simpl. rewrite String.eqb_refl, orb_true_r.
    rewrite unseen_snoc_seen; [lia|]. apply elem_of_app. right. by left.
  - assert (dep ∉ chain ++ [specifier block]) as Hnew.
    { rewrite elem_of_app, list_elem_of_singleton. tauto. }
    pose proof (unseen_snoc_lt U _ dep Htarget Hnew).
    destruct (existsb (String.eqb dep) (chain ++ _));
      destruct (existsb (String.eqb (specifier block)) chain); lia.
Qed.

(** The loop over the dependencies returns when every call it makes does. *)
Lemma searchDeps_returns recurse search cats chain newChain deps :
  (∀ dep depBlock, dep ∈ deps → dep ∉ chain →
     findDepBlock cats dep = Some depBlock →
     ∃ r, recurse depBlock newChain = Returned r) →
  ∃ r, searchDeps recurse search cats chain newChain deps = Returned r.
Proof.
  induction deps as [|dep rest IH]; intros Hrec; simpl; [eauto|].
  destruct (String.eqb dep search); [eauto|].
  destruct (existsb (String.eqb dep) chain) eqn:Hchain; [eauto|].
  assert (∃ r, searchDeps recurse search cats chain newChain rest = Returned r)
    as Hrest by (apply IH; intros; eapply Hrec; eauto; by right).
  destruct (findDepBlock cats dep) as [depBlock|] eqn:Hfind; [|done].
  destruct (Hrec dep depBlock) as [[found|] ->]; simpl; eauto.
  - by left.
  - by apply includes_not_elem.
Qed.

(** The loop calls [recurse] only on the blocks that dependencies off the
    chain resolve to. *)
Lemma searchDeps_descends_off_chain recurse recurse' search cats chain newChain deps :
  (∀ dep depBlock, dep ∈ deps → dep ∉ chain →
     findDepBlock cats dep = Some depBlock →
     recurse depBlock newChain = recurse' depBlock newChain) →
  searchDeps recurse search cats chain newChain deps
  = searchDeps recurse' search cats chain newChain deps.
Proof.
  induction deps as [|dep rest IH]; intros Hrec; simpl; [done|].
  destruct (String.eqb dep search); [done|].
  destruct (existsb (String.eqb dep) chain) eqn:Hchain; [done|].
  assert (searchDeps recurse search cats chain newChain rest
          = searchDeps recurse' search cats chain newChain rest) as Hrest
    by (apply IH; intros; eapply Hrec; eauto; by right).
  destruct (findDepBlock cats dep) as [depBlock|] eqn:Hfind; [|done].
  rewrite (Hrec dep depBlock); [|by left|by apply includes_not_elem|done].
  destruct (recurse' depBlock newChain) as [[found|]|e]; simpl; done.
Qed.

Lemma searchForDep_returns_within cats search :
  depsNameTargets cats = true →
  ∀ stack block chain,
    block ∈ allBlocks cats → depth cats block chain < stack →
    ∃ r, searchForDep stack search block cats chain = Returned r.
Proof.
  intros Hwf. induction stack as [|stack IH]; intros block chain Hb Hdepth; [lia|].
  rewrite searchForDep_unfold. apply searchDeps_returns.
  intros dep depBlock Hdep Hnot Hfind. apply IH.
  - by eapply findDepBlock_elem.
  - pose proof (depth_descent _ _ _ _ _ Hwf Hb Hdep Hnot Hfind). lia.
Qed.

Lemma depth_start cats block :
  block ∈ allBlocks cats → depth cats block [] < 2 * distinctSpecifiers cats.
Proof.
  intros Hb. unfold depth, distinctSpecifiers. simpl.
  pose proof (unseen_snoc_lt _ [] _ (specifier_in_universe _ _ Hb)) as Hlt.
  rewrite unseen_nil in Hlt. simpl in Hlt.
  assert (specifier block ∉ []) as Hnil by (intros Hin; inversion Hin).
  specialize (Hlt Hnil). lia.
Qed.

Lemma searchForDep_returns cats search block stack :
  depsNameTargets cats = true →
  block ∈ allBlocks cats →
  2 * distinctSpecifiers cats ≤ stack →
  ∃ r, searchForDep stack search block cats [] = Returned r.
Proof.
  intros Hwf Hb Hstack. apply searchForDep_returns_within; [done..|].
  pose proof (depth_start cats block Hb). lia.
Qed.

(** [searchForDep] never returns on the manifest whose dependency resolves
    to the block that declares it under another spelling. *)
Lemma searchForDep_stray_overflows :
  ∀ stack chain,
    existsb (String.eqb "cat/a/x") chain = false →
    searchForDep stack "cat/a" strayA (categories stray) chain = Threw RangeError.
Proof.
  induction stack as [|stack IH]; intros chain Hchain; [done|].
  rewrite searchForDep_unfold.
  change (localDependencies strayA) with ["cat/a/x"]. cbn [searchDeps].
  change (String.eqb "cat/a/x" "cat/a") with false. cbv iota.
  rewrite Hchain.
  change (findDepBlock (categories stray) "cat/a/x") with (Some strayA). cbv iota.
  rewrite IH; [done|]. rewrite existsb_app, Hchain. reflexivity.
Qed.

(** ** Completeness of the search on acyclic manifests *)

Lemma ranked_spec cats rank b dep target :
  ranked cats rank = true → b ∈ allBlocks cats →
  dep ∈ localDependencies b → findDepBlock cats dep = Some target →
  rank (specifier target) < rank (specifier b).
Proof.
  intros Hr Hb Hdep Hfind. unfold ranked in Hr.
  rewrite forallb_elem in Hr. specialize (Hr b Hb).
  rewrite forallb_elem in Hr. specialize (Hr dep Hdep).
  rewrite Hfind in Hr. by apply Nat.ltb_lt.
Qed.

Lemma specifiersResolve_spec cats b :
  specifiersResolve cats = true → b ∈ allBlocks cats →
  is_Some (findDepBlock cats (specifier b)).
Proof.
  intros Hr Hb. unfold specifiersResolve in Hr.
  rewrite forallb_elem in Hr. specialize (Hr b Hb).
  by apply bool_decide_eq_true in Hr.
Qed.

Section Acyclic.
  Variables (cats : list Category) (rank : string → nat).
  Hypothesis Hnames : depsNameTargets cats = true.
  Hypothesis Hresolve : specifiersResolve cats = true.
  Hypothesis Hranked : ranked cats rank = true.

(** Without a cycle the guard on the chain never fires. *)
Lemma guard_silent block chain dep :
  block ∈ allBlocks cats → ancestors cats rank block chain →
  dep ∈ localDependencies block → dep ∉ chain.
Proof using Hnames Hresolve Hranked.
  intros Hb Hanc Hdep Hin.
  destruct (Hanc dep Hin) as [Hlt [anc [Hanc_in Hspec]]].
  destruct (specifiersResolve_spec cats anc Hresolve Hanc_in) as [target Hfind].
  rewrite Hspec in Hfind.
  pose proof (depsNameTargets_spec _ _ _ _ Hnames Hb Hdep Hfind) as Htarget.
  pose proof (ranked_spec _ _ _ _ _ Hranked Hb Hdep Hfind) as Hrank.
  rewrite Htarget in Hrank. lia.
Qed.

Lemma ancestors_descend block chain dep depBlock :
  block ∈ allBlocks cats → ancestors cats rank block chain →
  dep ∈ localDependencies block → findDepBlock cats dep = Some depBlock →
  ancestors cats rank depBlock (chain ++ [specifier block]).
Proof using Hranked.
  intros Hb Hanc Hdep Hfind s Hs.
  pose proof (ranked_spec _ _ _ _ _ Hranked Hb Hdep Hfind) as Hrank.
  apply elem_of_app in Hs as [Hs|Hs].
  - destruct (Hanc s Hs) as [Hlt Hex]. split; [lia|done].
  - apply list_elem_of_singleton in Hs as ->. split; [done|eauto].
Qed.

(** The loop finds the specifier when one of the dependencies left to
    visit is the specifier, or leads the recursive call to it. *)
Lemma searchDeps_finds recurse search chain newChain deps :
  (∀ dep, dep ∈ deps → dep ∉ chain) →
  (∃ dep, dep ∈ deps ∧
     (dep = search ∨
      ∃ depBlock, findDepBlock cats dep = Some depBlock ∧
        ∀ r, recurse depBlock newChain = Returned r → is_Some r)) →
  ∀ r, searchDeps recurse search cats chain newChain deps = Returned r → is_Some r.
Proof.
  induction deps as [|dep rest IH]; intros Hguard [d [Hd Hfound]] r.
  { inversion Hd. }
  simpl. destruct (String.eqb dep search) eqn:Heq.
  { intros [= <-]. eauto. }
  assert (existsb (String.eqb dep) chain = false) as ->
    by (apply includes_not_elem, Hguard; left).
  assert (Hrest : (∃ dep', dep' ∈ rest ∧
     (dep' = search ∨
      ∃ depBlock, findDepBlock cats dep' = Some depBlock ∧
        ∀ r, recurse depBlock newChain = Returned r → is_Some r)) →
     searchDeps recurse search cats chain newChain rest = Returned r → is_Some r).
  { intros Hex. apply IH; [|done]. intros d' Hd'. apply Hguard. by right. }
  apply elem_of_cons in Hd as [->|Hd].
  - destruct Hfound as [->|[depBlock [Hfind Hrec]]].
    { apply eqb_false in Heq. done. }
    rewrite Hfind. destruct (recurse depBlock newChain) as [[path|]|e] eqn:Hcall; simpl.
    + intros [= <-]. eauto.
    + destruct (Hrec None eq_refl) as [? [=]].
    + discriminate.
  - destruct (findDepBlock cats dep) as [depBlock|]; [|apply Hrest; eauto].
    destruct (recurse depBlock newChain) as [[path|]|e]; simpl.
    + intros [= <-]. eauto.
    + apply Hrest; eauto.
    + discriminate.
Qed.

Lemma searchForDep_complete search :
  ∀ stack block chain r,
    block ∈ allBlocks cats → ancestors cats rank block chain →
    reaches cats block search →
    searchForDep stack search block cats chain = Returned r → is_Some r.
Proof using Hnames Hresolve Hranked.
  induction stack as [|stack IH]; intros block chain r Hb Hanc Hreach; [discriminate|].
  rewrite searchForDep_unfold. apply searchDeps_finds.
  - intros dep Hdep. by eapply guard_silent.
  - inversion Hreach as [? ? Hdirect|? dep depBlock ? Hdep Hfind Hnext]; subst.
    + exists search. eauto.
    + exists dep. split; [done|]. right. exists depBlock. split; [done|].
      intros r'. apply IH; [by eapply findDepBlock_elem | by eapply ancestors_descend | done].
Qed.
End Acyclic.

(** ** [no-unused-block] *)

Lemma listedBlocks_elem cats b :
  b ∈ List.filter listed (flat_map blocks cats) ↔ b ∈ allBlocks cats ∧ listed b = true.
Proof. unfold allBlocks. rewrite !list_elem_of_In. apply filter_In. Qed.

(** Whatever the manifest, a search from the listed blocks that succeeds
    has a listed block whose closure reaches the specifier. *)
Lemma reachedFromListed_sound `{Host} stack target cats bs :
  reachedFromListed stack target cats bs = Returned true →
  ∃ b, b ∈ bs ∧ reaches cats b target.
Proof.
  induction bs as [|b rest IH]; simpl; [discriminate|].
  destruct (searchForDep stack target b cats []) as [[path|]|e] eqn:Hsearch;
    simpl; [| |discriminate].
  - intros _. exists b. split; [by left|]. by eapply searchForDep_sound.
  - intros Hrest. destruct (IH Hrest) as [b' [Hb' Hreach]]. exists b'.
    split; [by right|done].
Qed.

Lemma reachedFromListed_exact `{Host} cats rank stack target bs :
  depsNameTargets cats = true → specifiersResolve cats = true →
  ranked cats rank = true → 2 * distinctSpecifiers cats ≤ stack →
  (∀ b, b ∈ bs → b ∈ allBlocks cats) →
  ∃ v, reachedFromListed stack target cats bs = Returned v ∧
       (v = true ↔ ∃ b, b ∈ bs ∧ reaches cats b target).
Proof.
  intros Hnames Hresolve Hranked Hstack.
  induction bs as [|b rest IH]; intros Hsub; simpl.
  { exists false. split; [done|]. split; [done|]. intros [b [Hb _]]. inversion Hb. }
  assert (Hb : b ∈ allBlocks cats) by (apply Hsub; left).
  destruct (searchForDep_returns cats target b stack Hnames Hb Hstack) as [r Hr].
  rewrite Hr. simpl. destruct r as [path|].
  - exists true. split; [done|]. split; [|done]. intros _. exists b.
    split; [by left|]. by eapply searchForDep_sound.
  - destruct IH as [v [Hv Hiff]]; [intros b' Hb'; apply Hsub; by right|].
    exists v. split; [done|]. rewrite Hiff. split.
    + intros [b' [Hb' Hreach]]. exists b'. split; [by right|done].
    + intros [b' [Hb' Hreach]]. apply elem_of_cons in Hb' as [->|Hb']; [|eauto].
      assert (is_Some (@None (list string))) as [? [=]].
      eapply (searchForDep_complete cats rank Hnames Hresolve Hranked target stack b []);
        [done| |done|done].
      intros s Hs. inversion Hs.
Qed.

(** A listed block is never reported, whatever the manifest. *)
Lemma no_unused_block_listed `{Host} stack block opts :
  listed block = true →
  check (no_unused_block stack) block opts = Returned None.
Proof. intros Hl. simpl. by rewrite Hl. Qed.

(** Whatever the manifest, a block that is not reported is listed or
    reached by a listed block. *)
Lemma no_unused_block_sound `{Host} stack block opts :
  check (no_unused_block stack) block opts = Returned None →
  listed block = true ∨
  reachedByListed (categories (manifest opts)) (specifier block).
Proof.
  simpl. destruct (listed block); [by left|]. intros Hcheck. right.
  destruct (reachedFromListed _ _ _ _) as [[|]|e] eqn:Hreached; simpl in Hcheck;
    [|discriminate..].
  apply reachedFromListed_sound in Hreached as [b [Hb Hreach]].
  apply listedBlocks_elem in Hb as [Hb Hl]. by exists b.
Qed.

(** X26: on a manifest without a cycle, whose resolving dependencies are
    the specifiers of their targets and whose blocks are found under their
    specifiers, the check of [no-unused-block] returns and reports a block
    exactly when it is not listed and no listed block's transitive
    local-dependency closure reaches it. *)
Theorem no_unused_block_exact `{Host} (cats : list Category)
    (rank : string → nat) (stack : nat) (block : Block)
    (opts : list OptionValue) (cfg : RegistryConfig) :
  depsNameTargets cats = true →
  specifiersResolve cats = true →
  ranked cats rank = true →
  2 * distinctSpecifiers cats ≤ stack →
  ∃ r, check (no_unused_block stack) block
         {| manifest := {| categories := cats |}; options := opts; config := cfg |}
       = Returned r ∧
       (is_Some r ↔ listed block = false ∧ ¬ reachedByListed cats (specifier block)).
Proof.
  intros Hnames Hresolve Hranked Hstack. simpl.
  destruct (listed block) eqn:Hl.
  { exists None. split; [done|]. split; [intros [? [=]]|intros [[=] _]]. }
  destruct (reachedFromListed_exact cats rank stack (specifier block)
              (List.filter listed (flat_map blocks cats))
              Hnames Hresolve Hranked Hstack) as [v [Hv Hiff]].
  { intros b Hb. by apply listedBlocks_elem in Hb as [Hb _]. }
  rewrite Hv. simpl.
  assert (v = true ↔ reachedByListed cats (specifier block)) as Hreached.
  { rewrite Hiff. unfold reachedByListed. split; intros [b Hb]; exists b.
    - destruct Hb as [Hb Hreach]. apply listedBlocks_elem in Hb. tauto.
    - rewrite listedBlocks_elem. tauto. }
  destruct v.
  - exists None. split; [done|]. split; [intros [? [=]]|].
    intros [_ Hnot]. destruct Hnot. by apply Hreached.
  - eexists. split; [done|]. split; [|eauto]. intros _. split; [done|].
    intros Hr. apply Hreached in Hr. discriminate.
Qed.

(** C1: on a cycle of three blocks [searchForDep] appends the specifier
    searched for once per level it returns through, so the chain that
    [no-circular-dependency] reports ends with the start twice,
    [cat/a -> cat/b -> cat/c -> cat/a -> cat/a], where the claim has it
    once. *)
Theorem searchForDep_three_cycle_repeats_target (k : nat) :
  searchForDep (3 + k) "cat/a" cycleA (categories threeCycle) []
    = Returned (Some ["cat/a"; "cat/b"; "cat/c"; "cat/a"; "cat/a"]) ∧
  check (no_circular_dependency (3 + k)) cycleA (plainOptions threeCycle [])
    = Returned (Some ["There is a circular dependency in cat/a: " +:+
                      "cat/a -> cat/b -> cat/c -> cat/a -> cat/a"]).
Proof. split; reflexivity. Qed.

(** C2: [no-unused-block] reports a block that a listed block reaches.
    In [backEdge] the block [cat/u] is not listed and is a dependency of
    [cat/m], which the listed [cat/l] depends on; the search from [cat/l]
    returns nothing, because [cat/m] names its ancestor [cat/l] first and
    the search of [cat/m] ends there, and [cat/u] is reported as unused.
    With the two dependencies of [cat/m] in the other order, the same block
    is found and not reported. *)
Theorem no_unused_block_flags_reached_block (k : nat) :
  listed appU = false ∧
  reachedByListed (categories backEdge) (specifier appU) ∧
  searchForDep (3 + k) "cat/u" appL (categories backEdge) [] = Returned None ∧
  check (no_unused_block (3 + k)) appU (plainOptions backEdge [])
    = Returned (Some ["cat/u is unused and will be removed"]) ∧
  check (no_unused_block (3 + k)) appU (plainOptions backEdgeReordered [])
    = Returned None.
Proof.
  split; [reflexivity|]. split; [|repeat split; reflexivity].
  exists appL. split; [left|]. split; [reflexivity|].
  apply (reaches_step _ appL "cat/m" appM); [left | reflexivity |].
  apply reaches_direct. right. left.
Qed.

Lemma no_unused_block_exact_witness :
  depsNameTargets (categories mathDiamond) = true ∧
  specifiersResolve (categories mathDiamond) = true ∧
  ranked (categories mathDiamond) diamondRank = true ∧
  2 * distinctSpecifiers (categories mathDiamond) ≤ 8 ∧
  ∃ r, check (no_unused_block 8) mathOld (plainOptions mathDiamond []) = Returned r ∧
       (is_Some r ↔ listed mathOld = false ∧
                    ¬ reachedByListed (categories mathDiamond) (specifier mathOld)).
Proof.
  assert (H1 : depsNameTargets (categories mathDiamond) = true) by reflexivity.
  assert (H2 : specifiersResolve (categories mathDiamond) = true) by reflexivity.
  assert (H3 : ranked (categories mathDiamond) diamondRank = true) by reflexivity.
  assert (H4 : 2 * distinctSpecifiers (categories mathDiamond) ≤ 8) by (vm_compute; lia).
  repeat (split; [assumption|]).
  exact (no_unused_block_exact (H:=plain) (categories mathDiamond) diamondRank 8
           mathOld [] plainConfig H1 H2 H3 H4).
Defined.

(** C10, as stated, fails twice.  On [stray] the dependency [cat/a/x]
    resolves to the block that declares it and is never on the chain: no
    stack is enough.  On [selfLoops], where every dependency is the
    specifier of its target, the search for [cat/u] needs six nested calls
    for four distinct specifiers: the guard reads the chain the call was
    given, so every block is entered a second time from itself. *)
Lemma searchForDep_depth_exceeds_specifiers :
  (∀ stack, searchForDep stack "cat/a" strayA (categories stray) []
            = Threw RangeError) ∧
  depsNameTargets (categories selfLoops) = true ∧
  distinctSpecifiers (categories selfLoops) = 4 ∧
  searchForDep 5 "cat/u" selfA (categories selfLoops) [] = Threw RangeError ∧
  searchForDep 6 "cat/u" selfA (categories selfLoops) [] = Returned None.
Proof.
  split; [|repeat split; reflexivity].
  intros stack. by apply searchForDep_stray_overflows.
Qed.

(** C10, as amended: on every manifest whose resolving dependencies are
    the specifiers of their targets, cycles and self-loops included,
    [searchForDep] started from a block of the manifest with an empty chain
    returns, and needs at most twice as many nested calls as the manifest
    has distinct block specifiers; its loop descends only into
    dependencies that are not on the chain the call was given. *)
Theorem searchForDep_terminates (cats : list Category) (search : string)
    (block : Block) (stack : nat) :
  depsNameTargets cats = true →
  block ∈ allBlocks cats →
  2 * distinctSpecifiers cats ≤ stack →
  (∃ r, searchForDep stack search block cats [] = Returned r) ∧
  (∀ recurse recurse' chain newChain deps,
     (∀ dep depBlock, dep ∈ deps → dep ∉ chain →
        findDepBlock cats dep = Some depBlock →
        recurse depBlock newChain = recurse' depBlock newChain) →
     searchDeps recurse search cats chain newChain deps
     = searchDeps recurse' search cats chain newChain deps).
Proof.
  intros Hnames Hblock Hstack. split.
  - apply searchForDep_returns_within; [done..|].
    pose proof (depth_start cats block Hblock). lia.
  - intros recurse recurse' chain newChain deps.
    apply searchDeps_descends_off_chain.
Qed.

Lemma searchForDep_terminates_witness :
  depsNameTargets (categories selfLoops) = true ∧
  selfA ∈ allBlocks (categories selfLoops) ∧
  2 * distinctSpecifiers (categories selfLoops) ≤ 8 ∧
  (∃ r, searchForDep 8 "cat/u" selfA (categories selfLoops) [] = Returned r) ∧
  (∀ recurse recurse' chain newChain deps,
     (∀ dep depBlock, dep ∈ deps → dep ∉ chain →
        findDepBlock (categories selfLoops) dep = Some depBlock →
        recurse depBlock newChain = recurse' depBlock newChain) →
     searchDeps recurse "cat/u" (categories selfLoops) chain newChain deps
     = searchDeps recurse' "cat/u" (categories selfLoops) chain newChain deps).
Proof.
  assert (H1 : depsNameTargets (categories selfLoops) = true) by reflexivity.
  assert (H2 : selfA ∈ allBlocks (categories selfLoops)) by left.
  assert (H3 : 2 * distinctSpecifiers (categories selfLoops) ≤ 8) by (vm_compute; lia).
  repeat (split; [assumption|]).
  exact (searchForDep_terminates (categories selfLoops) "cat/u" selfA 8 H1 H2 H3).
Defined.

(** ** The rules that read one block *)

(** A loop that pushes [f x] for every [x] that passes [p] collects the
    images of the elements that pass, in order. *)
Lemma foldl_collect {A B} (p : A → bool) (f : A → B) (xs : list A) (init : list B) :
  foldl (fun acc x => if p x then acc ++ [f x] else acc) init xs
  = init ++ map f (List.filter p xs).
Proof.
  revert init. induction xs as [|x rest IH]; intros init; simpl.
  - by rewrite app_nil_r.
  - rewrite IH. destruct (p x); simpl; [|done]. by rewrite <- app_assoc.
Qed.

Lemma foldl_collect_ext {A B} (step : list B → A → list B) (p : A → bool)
    (f : A → B) (xs : list A) (init : list B) :
  (∀ acc x, step acc x = if p x then acc ++ [f x] else acc) →
  foldl step init xs = init ++ map f (List.filter p xs).
Proof.
  intros Hstep. rewrite <- foldl_collect. revert init.
  induction xs as [|x rest IH]; intros init; simpl; [done|].
  by rewrite Hstep, IH.
Qed.

Lemma orUndefined_is_Some `{Host} (errs : list string) :
  is_Some (orUndefined errs) ↔ errs ≠ [].
Proof.
  unfold orUndefined. destruct errs as [|e rest]; simpl.
  - split; [intros [? [=]]|done].
  - split; [done|eauto].
Qed.

Lemma no_unpinned_dependency_reports `{Host} block opts :
  check no_unpinned_dependency block opts =
  Returned (orUndefined
    (map (fun dep => "Couldn't find a version to use for " +:+ bold dep)
         (List.filter (fun dep => negb (includes "@" dep))
                      (dependencies block ++ devDependencies block)))).
Proof. simpl. do 2 f_equal. apply (foldl_collect _ _ _ []). Qed.

(** C3: the rule reports the dependencies that hold no ['@'] at all.
    ["lodash"] is reported once and ["lodash@4.17.21"] is not, as the claim
    has it; but ["lodash@"], with nothing after the separator, and the
    scoped name ["@sveltejs/kit"], with no version at all, are not pinned
    and pass unreported. *)
Theorem no_unpinned_dependency_accepts_unpinned :
  check (H:=plain) no_unpinned_dependency (withDependencies ["lodash"] [])
        (plainOptions mathDiamond [])
    = Returned (Some ["Couldn't find a version to use for lodash"]) ∧
  check (H:=plain) no_unpinned_dependency (withDependencies ["lodash@4.17.21"] [])
        (plainOptions mathDiamond [])
    = Returned None ∧
  check (H:=plain) no_unpinned_dependency
        (withDependencies ["lodash@"] ["@sveltejs/kit"])
        (plainOptions mathDiamond [])
    = Returned None ∧
  pinned "lodash" = false ∧ pinned "lodash@4.17.21" = true ∧
  pinned "lodash@" = false ∧ pinned "@sveltejs/kit" = false.
Proof. repeat split; reflexivity. Qed.

(** C4, as stated, fails: [utils/math] depends on the index of another
    category, [ui/index], and is reported. *)
Lemma index_dependency_of_other_category_reported :
  check (H:=plain) no_category_index_file_dependency utilsMath
        (plainOptions crossIndex [])
    = Returned (Some ["utils/math depends on ui/index"]) ∧
  ownIndexDependency utilsMath = false.
Proof. split; reflexivity. Qed.

(** C4, as amended: [no-category-index-file-dependency] reports a block
    exactly when it declares a local dependency whose second component is
    [index] and whose first component names a category of the manifest
    that has a block named [index], the block's own category or any other;
    it reports once for each such dependency. *)
Theorem no_category_index_file_dependency_exact `{Host} (block : Block)
    (opts : CheckOptions) :
  let cats := categories (manifest opts) in
  ∃ r, check no_category_index_file_dependency block opts = Returned r ∧
       (is_Some r ↔
        ∃ dep, dep ∈ localDependencies block ∧ indexDependency cats dep = true) ∧
       length (default [] r)
       = length (List.filter (indexDependency cats) (localDependencies block)).
Proof.
  intros cats.
  set (f := fun dep : string =>
    bold (specifier block) +:+ " depends on " +:+
    bold ((destructure2 (split_slash dep)).1 +:+ "/" +:+
          default "" (destructure2 (split_slash dep)).2)).
  exists (orUndefined (map f (List.filter (indexDependency cats)
                                          (localDependencies block)))).
  split.
  { simpl. do 2 f_equal. apply (foldl_collect_ext _ (indexDependency cats) f).
    intros acc dep. unfold indexDependency, f, destructure2. fold cats. simpl.
    destruct (isString (split_slash dep !! 1) "index"); simpl; [|reflexivity].
    destruct (findCategory cats _) as [category|]; [|reflexivity].
    destruct (findBlock (blocks category) _); reflexivity. }
  split.
  - rewrite orUndefined_is_Some. split.
    + intros Hne. destruct (List.filter _ _) as [|dep rest] eqn:Hf; [done|].
      exists dep. rewrite list_elem_of_In. apply filter_In. rewrite Hf. by left.
    + intros [dep [Hdep Hidx]] Hnil. apply list_elem_of_In in Hdep.
      assert (In dep (List.filter (indexDependency cats) (localDependencies block)))
        as Hin by (apply filter_In; done).
      destruct (List.filter _ _); [done|discriminate].
  - unfold orUndefined. destruct (List.filter _ _); simpl; [done|].
    by rewrite length_map.
Qed.

Lemma exceeds_value (count : nat) (mantissa exponent : Z) :
  exceeds count (Finite mantissa exponent)
  = negb (QArith_base.Qle_bool (QArith_base.inject_Z (Z.of_nat count))
                               (valueOf mantissa exponent)).
Proof.
  unfold exceeds, valueOf, QArith_base.Qle_bool, QArith_base.inject_Z.
  destruct (0 <=? exponent)%Z eqn:He; cbn [QArith_base.Qnum QArith_base.Qden].
  - rewrite !Z.mul_1_r. apply Z.ltb_antisym.
  - apply Z.leb_gt in He.
    rewrite Z.mul_1_r, Z2Pos.id by (apply Z.pow_pos_nonneg; lia).
    apply Z.ltb_antisym.
Qed.

Lemma exceeds_integer (count : nat) (n : Z) :
  exceeds count (integer n) = (n <? Z.of_nat count)%Z.
Proof. unfold exceeds, integer. simpl. by rewrite Z.mul_1_r. Qed.

Lemma showNumber_integer (digits : Z → Z → string) (n : Z) :
  showNumber digits (integer n)
  = if (Z.abs n <? 2 ^ 53)%Z then showZ n else digits n 0%Z.
Proof. unfold showNumber, integer, integerValue. simpl. by rewrite Z.mul_1_r. Qed.

(** C5: with a number as first option, whatever number it is,
    [max-local-dependencies] reports a block exactly when the length of its
    local dependencies exceeds that limit, with one message that names the
    block, the length and the limit as the engine prints it.  The length
    exceeds a finite limit when the limit's value is below it, every length
    exceeds minus infinity, none exceeds infinity or [NaN]; an integer limit
    below [2 ^ 53] in magnitude is printed by its digits.  A block with
    three local dependencies is reported under the limit 2 (and 2.5) and not
    under 3. *)
Theorem max_local_dependencies_exact `{Host} (block : Block) (m : Manifest)
    (limit : JSNumber) (rest : list OptionValue) (cfg : RegistryConfig) :
  check max_local_dependencies block
        {| manifest := m; options := OptNumber limit :: rest; config := cfg |}
  = Returned
      (if exceeds (length (localDependencies block)) limit
       then Some [bold (specifier block) +:+ " has too many local dependencies (" +:+
                  bold (showNat (length (localDependencies block))) +:+
                  ") limit (" +:+ bold (showNumber Number_toString limit) +:+ ")"]
       else None) ∧
  (∀ (count : nat) (mantissa exponent : Z),
     exceeds count (Finite mantissa exponent)
     = negb (QArith_base.Qle_bool (QArith_base.inject_Z (Z.of_nat count))
                                  (valueOf mantissa exponent))) ∧
  (∀ (count : nat) (n : Z),
     exceeds count (integer n) = (n <? Z.of_nat count)%Z ∧
     showNumber Number_toString (integer n)
     = if (Z.abs n <? 2 ^ 53)%Z then showZ n else Number_toString n 0%Z) ∧
  (∀ count : nat,
     exceeds count NaN = false ∧
     exceeds count (Infinity false) = false ∧
     exceeds count (Infinity true) = true) ∧
  check (H:=plain) max_local_dependencies threeDeps
        (plainOptions m [OptNumber (integer 2)])
  = Returned (Some ["ui/form has too many local dependencies (3) limit (2)"]) ∧
  check (H:=plain) max_local_dependencies threeDeps
        (plainOptions m [OptNumber (integer 3)])
  = Returned None ∧
  exceeds (length (localDependencies threeDeps)) (Finite 5 (-1)) = true.
Proof.
  split; [|split; [|split; [|split; [|split; [|split]]]]]; try reflexivity.
  - simpl. by destruct (exceeds _ _).
  - apply exceeds_value.
  - intros count n. split; [apply exceeds_integer|apply showNumber_integer].
  - done.
Qed.

(** ** [runRules] *)

Lemma forOf_ext {A S} (f g : A → S → outcome S) (xs : list A) (acc : S) :
  (∀ x a, x ∈ xs → f x a = g x a) → forOf f xs acc = forOf g xs acc.
Proof.
  revert acc. induction xs as [|x rest IH]; intros acc Hfg; simpl; [done|].
  rewrite (Hfg x acc) by left. destruct (g x acc) as [acc'|e]; simpl; [|done].
  apply IH. intros y a Hy. apply Hfg. by right.
Qed.

(** The rules of one block can be exchanged for rules that do the same. *)
Lemma runRulesWith_ext `{Host} (table table' : list (string * Rule)) m cfg ruleConfig
    ruleConfig' :
  (∀ block acc, forOf (runRule m cfg ruleConfig block) table acc
                = forOf (runRule m cfg ruleConfig' block) table' acc) →
  runRulesWith table m cfg ruleConfig = runRulesWith table' m cfg ruleConfig'.
Proof.
  intros Hsame. unfold runRulesWith. apply forOf_ext. intros category acc _.
  apply forOf_ext. intros block acc' _. apply Hsame.
Qed.

(** A rule that is [off] returns the report untouched, whatever its check. *)
Lemma runRule_off `{Host} m cfg ruleConfig block name rule acc :
  levelOf (ruleConfig !! name) = Some off →
  runRule m cfg ruleConfig block (name, rule) acc = Returned acc.
Proof. intros Hoff. unfold runRule. by rewrite Hoff. Qed.

Lemma forOf_without `{Host} m cfg ruleConfig block name table acc :
  levelOf (ruleConfig !! name) = Some off →
  forOf (runRule m cfg ruleConfig block) table acc
  = forOf (runRule m cfg ruleConfig block) (without name table) acc.
Proof.
  intros Hoff. revert acc. induction table as [|[n rule] rest IH]; intros acc; [done|].
  unfold without in *. cbn [forOf List.filter fst].
  destruct (String.eqb n name) eqn:Hn; cbn [negb forOf].
  - apply eqb_true in Hn as ->. rewrite runRule_off by done. simpl. apply IH.
  - destruct (runRule _ _ _ _ _ acc) as [acc'|e]; simpl; [apply IH|done].
Qed.

Lemma without_withCheck `{Host} name chk table :
  without name (withCheck name chk table) = without name table.
Proof.
  unfold without, withCheck. induction table as [|[n rule] rest IH]; [done|].
  cbn [map List.filter fst]. destruct (String.eqb n name) eqn:Hn; cbn [fst negb].
  - rewrite Hn. simpl. apply IH.
  - rewrite Hn. simpl. by rewrite IH.
Qed.

(** C6: when the configured level of a rule is [off], [runRules] gives the
    report of the engine without that rule, and gives it whatever the
    rule's check would do, a check that throws included: the check is not
    called. *)
Theorem runRules_off_skips_check `{Host} (stack : nat) (m : Manifest)
    (cfg : RegistryConfig) (ruleConfig : gmap string RuleSetting) (name : string)
    (chk : Block → CheckOptions → outcome (option (list string))) :
  levelOf (ruleConfig !! name) = Some off →
  runRules stack m cfg ruleConfig
    = runRulesWith (without name (rules stack)) m cfg ruleConfig ∧
  runRulesWith (withCheck name chk (rules stack)) m cfg ruleConfig
    = runRulesWith (without name (rules stack)) m cfg ruleConfig.
Proof.
  intros Hoff. split; apply runRulesWith_ext; intros block acc.
  - by apply forOf_without.
  - rewrite <- (without_withCheck name chk). by apply forOf_without.
Qed.

Lemma runRules_off_skips_check_witness :
  levelOf (circularOff !! "no-circular-dependency") = Some off ∧
  runRules (H:=plain) 0 threeCycle plainConfig circularOff
    = runRulesWith (without "no-circular-dependency" (rules 0)) threeCycle plainConfig circularOff ∧
  runRulesWith (H:=plain) (withCheck "no-circular-dependency" throwing (rules 0))
               threeCycle plainConfig circularOff
    = runRulesWith (without "no-circular-dependency" (rules 0)) threeCycle plainConfig circularOff.
Proof.
  assert (Hoff : levelOf (circularOff !! "no-circular-dependency") = Some off)
    by reflexivity.
  split; [assumption|].
  exact (runRules_off_skips_check (H:=plain) 0 threeCycle plainConfig circularOff
           "no-circular-dependency" throwing Hoff).
Defined.

(** With the rule off the engine returns where its check would have
    thrown. *)
Lemma runRules_off_example :
  runRules (H:=plain) 0 threeCycle plainConfig DEFAULT_CONFIG = Threw RangeError ∧
  runRules (H:=plain) 0 threeCycle plainConfig circularOff
    = Returned {| warnings := []; errors := [] |}.
Proof. split; vm_compute; reflexivity. Qed.

(** A rule without an entry in the configuration has no level, which is
    neither [off] nor [error]: the body of the loop calls its check, with no
    options, and adds what it reports to the warnings. *)
Lemma runRule_missing_entry `{Host} m cfg ruleConfig name rule block acc :
  ruleConfig !! name = None →
  runRule m cfg ruleConfig block (name, rule) acc
    = (ruleErrors ← check rule block
                      {| manifest := m; options := []; config := cfg |};
       Returned {| warnings := warnings acc ++ map (warnLine name) (default [] ruleErrors);
                   errors := errors acc |}).
Proof.
  intros Hnone. unfold runRule. rewrite Hnone. simpl.
  destruct (check rule block _) as [[ruleErrors|]|e]; simpl; [done| |done].
  destruct acc. simpl. by rewrite app_nil_r.
Qed.

(** The run is then the run with the rule set to [warn]. *)
Lemma runRulesWith_missing_entry `{Host} table m cfg ruleConfig name :
  ruleConfig !! name = None →
  runRulesWith table m cfg ruleConfig
    = runRulesWith table m cfg (<[name := Level warn]> ruleConfig).
Proof.
  intros Hnone.
  apply runRulesWith_ext. intros b a. apply forOf_ext. intros [n r] a' _.
  unfold runRule. destruct (decide (name = n)) as [<-|Hne].
  - by rewrite Hnone, lookup_insert_eq.
  - by rewrite lookup_insert_ne.
Qed.

(** ** The review loop *)

Section Review.
Context `{Collaborators}.
Variables (opts : Options) (file : File) (from to : string).
Variables (fs : gmap string string) (localContent originalRemoteContent : string).
Hypothesis Hyes : yes opts = false.
Hypothesis Hno : no opts = false.

Local Abbreviation loop :=
  (review opts file from to fs localContent originalRemoteContent).

(** The loop does not ask: it breaks with what it was given. *)
Lemma review_silent answers remoteContent log :
  asks localContent remoteContent = false →
  loop answers remoteContent log = Continue (false, remoteContent, answers, log).
Proof using Hyes.
  intros Hasks. destruct answers; simpl; by rewrite Hasks, Hyes.
Qed.

(** At the prompt, any answer but a rewrite breaks the loop, accepted
    only if the answer is [accept]. *)
Lemma review_decides answers remoteContent log choice :
  asks localContent remoteContent = true →
  String.eqb choice "update" = false →
  loop (Choose choice :: answers) remoteContent log
  = Continue (String.eqb choice "accept", remoteContent, answers,
              log ++ [Prompt "Accept changes?"]).
Proof using Hyes Hno.
  intros Hasks Hchoice. simpl. by rewrite Hasks, Hyes, Hno, Hchoice.
Qed.

(** The rounds of AI rewrites lead the loop to the candidate they build. *)
Lemma review_rounds models :
  ∀ remoteContent log candidate events tail,
    rewritten file from to localContent originalRemoteContent models remoteContent
      = Some (candidate, events) →
    loop (rewriteAnswers models ++ tail) remoteContent log
    = loop tail candidate (log ++ events).
Proof using Hyes Hno.
  induction models as [|model rest IH]; intros remoteContent log candidate events tail.
  { intros [= <- <-]. by rewrite app_nil_r. }
  cbn [rewritten]. destruct (asks localContent remoteContent) eqn:Hasks; [|discriminate].
  cbn [rewriteAnswers flat_map app]. cbn [review].
  rewrite Hasks, Hyes, Hno. cbn [negb andb].
  change (String.eqb "update" "update") with true. cbv iota.
  destruct (updateFile model _ _) as [text|].
  - destruct (rewritten _ _ _ _ _ rest _) as [[c ev]|] eqn:Hrest; [|discriminate].
    intros [= <- <-]. fold (rewriteAnswers rest). rewrite (IH _ _ _ _ _ Hrest).
    f_equal. by rewrite <- !app_assoc.
  - destruct (rewritten _ _ _ _ _ rest _) as [[c ev]|] eqn:Hrest; [|discriminate].
    intros [= <- <-]. fold (rewriteAnswers rest). rewrite (IH _ _ _ _ _ Hrest).
    f_equal. by rewrite <- !app_assoc.
Qed.
End Review.

(** The file is left alone when the diff has at most one change and the
    local file is not empty. *)
Lemma updateOneFile_silent `{Collaborators} opts from to file (s : Session)
    (local remote : string) :
  yes opts = false →
  transformRemoteContent file = Some remote →
  disk s !! destPath file = Some local →
  asks local remote = false →
  updateOneFile opts from to file s = Continue s.
Proof.
  intros Hyes Hremote Hlocal Hasks. unfold updateOneFile, readLocal.
  rewrite Hremote, Hyes, Hlocal. simpl.
  rewrite review_silent by done. by destruct s.
Qed.

(** C7: when the local file has content and the candidate is such that the
    diff is one change that removes lines, the diff holds a real change,
    and yet the loop does not ask: no prompt, no write, the session is as
    it was.  (The test is [changes.length > 1], which a single removal
    does not pass.) *)
Theorem update_skips_removal_only_diff `{Collaborators} (opts : Options)
    (from to : File → string) (file : File) (s : Session)
    (local remote : string) (change : Change) :
  yes opts = false →
  no opts = false →
  transformRemoteContent file = Some remote →
  disk s !! destPath file = Some local →
  local ≠ "" →
  diffLines local remote = [change] →
  removed change = true →
  totalChanges (diffLines local remote) = 1 ∧
  updateOneFile opts from to file s = Continue s.
Proof.
  intros Hyes Hno Hremote Hlocal Hne Hdiff Hremoved. split.
  - rewrite Hdiff. unfold totalChanges. simpl. by rewrite Hremoved, orb_true_r.
  - eapply updateOneFile_silent; [done..|].
    unfold asks. rewrite Hdiff. simpl. by apply eqb_false.
Qed.

Lemma update_skips_removal_only_diff_witness :
  yes interactive = false ∧ no interactive = false ∧
  transformRemoteContent (Collaborators := scripted) emptiedFile = Some "" ∧
  disk emptiedSession !! destPath emptiedFile = Some oneLine ∧
  oneLine ≠ "" ∧
  diffLines (Collaborators := scripted) oneLine "" = [emptiedChange] ∧
  removed emptiedChange = true ∧
  totalChanges (diffLines (Collaborators := scripted) oneLine "") = 1 ∧
  updateOneFile (H := scripted) interactive shownFrom shownTo emptiedFile
                emptiedSession = Continue emptiedSession.
Proof.
  assert (H1 : yes interactive = false) by reflexivity.
  assert (H2 : no interactive = false) by reflexivity.
  assert (H3 : transformRemoteContent (Collaborators := scripted) emptiedFile = Some "")
    by reflexivity.
  assert (H4 : disk emptiedSession !! destPath emptiedFile = Some oneLine)
    by reflexivity.
  assert (H5 : oneLine ≠ "") by discriminate.
  assert (H6 : diffLines (Collaborators := scripted) oneLine "" = [emptiedChange])
    by reflexivity.
  assert (H7 : removed emptiedChange = true) by reflexivity.
  repeat (split; [assumption|]).
  exact (update_skips_removal_only_diff (H := scripted) interactive shownFrom shownTo
           emptiedFile emptiedSession oneLine "" emptiedChange H1 H2 H3 H4 H5 H6 H7).
Defined.

(** C8: a file for which the loop asks, at once or after any rounds of AI
    rewrites.  On [accept] the file on disk gets the candidate content, and
    that write is the only one; on [reject] nothing is written and the
    disk is as it was. *)
Theorem update_accept_writes_reject_keeps `{Collaborators} (opts : Options)
    (from to : File → string) (file : File) (fs : gmap string string)
    (past : list Event) (rest : list Answer) (remote : string)
    (models : list string) (candidate : string) (events : list Event) :
  yes opts = false →
  no opts = false →
  transformRemoteContent file = Some remote →
  rewritten file (from file) (to file) (readLocal fs file) remote models remote
    = Some (candidate, events) →
  asks (readLocal fs file) candidate = true →
  updateOneFile opts from to file
    {| disk := fs; answers := rewriteAnswers models ++ Choose "accept" :: rest;
       log := past |}
  = Continue {| disk := <[destPath file := candidate]> fs; answers := rest;
                log := (past ++ events ++ [Prompt "Accept changes?"])
                       ++ [WriteFile (destPath file) candidate] |} ∧
  updateOneFile opts from to file
    {| disk := fs; answers := rewriteAnswers models ++ Choose "reject" :: rest;
       log := past |}
  = Continue {| disk := fs; answers := rest;
                log := past ++ events ++ [Prompt "Accept changes?"] |}.
Proof.
  intros Hyes Hno Hremote Hrounds Hasks.
  unfold updateOneFile. rewrite Hremote, Hyes. cbn [negb disk answers log].
  rewrite !(review_rounds _ _ _ _ _ _ _ Hyes Hno _ _ _ _ _ _ Hrounds).
  rewrite !review_decides by done. cbn -[insert].
  by rewrite <- !app_assoc.
Qed.

Lemma update_accept_writes_reject_keeps_witness :
  yes interactive = false ∧ no interactive = false ∧
  transformRemoteContent (Collaborators := scripted) fileAC = Some remoteAC ∧
  rewritten (H := scripted) fileAC (shownFrom fileAC) (shownTo fileAC)
            (readLocal (onDisk localAB) fileAC) remoteAC sonnet remoteAC
    = Some (remoteAC, oneRound) ∧
  asks (H := scripted) (readLocal (onDisk localAB) fileAC) remoteAC = true ∧
  updateOneFile (H := scripted) interactive shownFrom shownTo fileAC
    {| disk := onDisk localAB;
       answers := rewriteAnswers sonnet ++ Choose "accept" :: [];
       log := [] |}
  = Continue {| disk := <[destPath fileAC := remoteAC]> (onDisk localAB);
                answers := [];
                log := ([] ++ oneRound ++ [Prompt "Accept changes?"])
                       ++ [WriteFile (destPath fileAC) remoteAC] |} ∧
  updateOneFile (H := scripted) interactive shownFrom shownTo fileAC
    {| disk := onDisk localAB;
       answers := rewriteAnswers sonnet ++ Choose "reject" :: [];
       log := [] |}
  = Continue {| disk := onDisk localAB; answers := [];
                log := [] ++ oneRound ++ [Prompt "Accept changes?"] |}.
Proof.
  assert (H1 : yes interactive = false) by reflexivity.
  assert (H2 : no interactive = false) by reflexivity.
  assert (H3 : transformRemoteContent (Collaborators := scripted) fileAC = Some remoteAC)
    by reflexivity.
  assert (H4 : rewritten (H := scripted) fileAC (shownFrom fileAC) (shownTo fileAC)
                 (readLocal (onDisk localAB) fileAC) remoteAC sonnet remoteAC
               = Some (remoteAC, oneRound))
    by reflexivity.
  assert (H5 : asks (H := scripted) (readLocal (onDisk localAB) fileAC) remoteAC = true)
    by reflexivity.
  repeat (split; [assumption|]).
  exact (update_accept_writes_reject_keeps (H := scripted) interactive shownFrom shownTo
           fileAC (onDisk localAB) [] [] remoteAC sonnet remoteAC oneRound
           H1 H2 H3 H4 H5).
Defined.

(** The scenario of the specification: [accept] turns the local
    ["a\nb\n"] into the remote ["a\nc\n"], [reject] keeps it. *)
Lemma update_accept_reject_example :
  totalChanges (lineDiff localAB remoteAC) = 2 ∧
  (∃ s, updateOneFile (H := scripted) interactive shownFrom shownTo fileAC
          {| disk := onDisk localAB; answers := [Choose "accept"]; log := [] |}
        = Continue s ∧ disk s !! destPath fileAC = Some remoteAC) ∧
  (∃ s, updateOneFile (H := scripted) interactive shownFrom shownTo fileAC
          {| disk := onDisk localAB; answers := [Choose "reject"]; log := [] |}
        = Continue s ∧ disk s !! destPath fileAC = Some localAB).
Proof.
  split; [reflexivity|].
  split; eexists; (split; [reflexivity|]); reflexivity.
Qed.

(** * Further properties of the code *)

(** ** [isDependedOn] and [no-unused-block] *)

Lemma dependedOnBy_app stack target cats bs otherwise :
  dependedOnBy stack target cats bs otherwise
  = (found ← reachedFromListed stack target cats (List.filter listed bs);
     if (found : bool) then Returned true else otherwise).
Proof.
  induction bs as [|block rest IH]; simpl; [done|].
  destruct (listed block); simpl; [|done].
  destruct (searchForDep stack target block cats []) as [[path|]|e]; simpl; done.
Qed.

Lemma reachedFromListed_app stack target cats bs bs' :
  reachedFromListed stack target cats (bs ++ bs')
  = (found ← reachedFromListed stack target cats bs;
     if (found : bool) then Returned true
     else reachedFromListed stack target cats bs').
Proof.
  induction bs as [|block rest IH]; simpl; [by destruct (reachedFromListed _ _ _ bs') as [[|]|]|].
  destruct (searchForDep stack target block cats []) as [[path|]|e]; simpl; done.
Qed.

Lemma isDependedOnFrom_listed stack target cats remaining :
  isDependedOnFrom stack target cats remaining
  = reachedFromListed stack target cats (List.filter listed (flat_map blocks remaining)).
Proof.
  induction remaining as [|category rest IH]; simpl; [done|].
  rewrite dependedOnBy_app, List.filter_app, reachedFromListed_app, IH. done.
Qed.

(** X4: [isDependedOn] and [no-unused-block] are one search.  For a block
    that is not listed the rule reports exactly when [isDependedOn] of the
    block's specifier returns false, and the two throw together. *)
Theorem no_unused_block_isDependedOn `{Host} (stack : nat) (block : Block)
    (opts : CheckOptions) :
  listed block = false →
  check (no_unused_block stack) block opts
  = (used ← isDependedOn stack (specifier block) (categories (manifest opts));
     Returned (if (used : bool) then None
               else Some [bold (specifier block) +:+ " is unused and will be "
                          +:+ bold_red "removed"])).
Proof.
  intros Hl. unfold isDependedOn. rewrite isDependedOnFrom_listed.
  simpl. rewrite Hl.
  destruct (reachedFromListed _ _ _ _) as [[|]|e]; done.
Qed.

Lemma no_unused_block_isDependedOn_witness :
  listed appU = false ∧
  check (H := plain) (no_unused_block 8) appU (plainOptions backEdge [])
  = (used ← isDependedOn 8 (specifier appU) (categories backEdge);
     Returned (if (used : bool) then None
               else Some [bold (Host := plain) (specifier appU)
                          +:+ " is unused and will be "
                          +:+ bold_red (Host := plain) "removed"])).
Proof.
  assert (Hl : listed appU = false) by reflexivity.
  split; [assumption|].
  exact (no_unused_block_isDependedOn (H := plain) 8 appU (plainOptions backEdge []) Hl).
Defined.

(** ** [require-local-dependency-exists] *)

Lemma require_local_dependency_exists_reports `{Host} block opts :
  check require_local_dependency_exists block opts
  = Returned (orUndefined
      (map (fun dep => bold (specifier block) +:+ " depends on local dependency "
                       +:+ bold dep +:+ " which doesn't exist")
           (List.filter (fun dep => negb (dependencyExists (categories (manifest opts)) dep))
                        (localDependencies block)))).
Proof.
  simpl. do 2 f_equal.
  erewrite (foldl_collect_ext _
           (fun dep => negb (dependencyExists (categories (manifest opts)) dep))
           (fun dep => bold (specifier block) +:+ " depends on local dependency "
                       +:+ bold dep +:+ " which doesn't exist")); [reflexivity|].
  intros acc dep. unfold dependencyExists, destructure2. simpl.
  destruct (find _ (categories (manifest opts))) as [depCategory|]; [|reflexivity].
  destruct (findBlock (blocks depCategory) _); reflexivity.
Qed.

Lemma filter_nil_iff {A} (p : A → bool) (xs : list A) :
  List.filter p xs ≠ [] ↔ ∃ x, x ∈ xs ∧ p x = true.
Proof.
  split.
  - destruct (List.filter p xs) as [|x rest] eqn:Hf; [done|]. intros _.
    exists x. rewrite list_elem_of_In. apply filter_In. rewrite Hf. by left.
  - intros [x [Hx Hp]] Hnil. apply list_elem_of_In in Hx.
    assert (In x (List.filter p xs)) as Hin by (by apply filter_In).
    rewrite Hnil in Hin. done.
Qed.

(** X1: [require-local-dependency-exists] reports a block exactly when
    one of its local dependencies names no block of a category with the
    same trimmed name, once for each such dependency; a dependency
    without a separator is always among them. *)
Theorem require_local_dependency_exists_exact `{Host} (block : Block)
    (opts : CheckOptions) :
  ∃ r, check require_local_dependency_exists block opts = Returned r ∧
       (is_Some r ↔
        ∃ dep, dep ∈ localDependencies block ∧
               dependencyExists (categories (manifest opts)) dep = false) ∧
       length (default [] r)
       = length (List.filter
                   (fun dep => negb (dependencyExists (categories (manifest opts)) dep))
                   (localDependencies block)) ∧
       (∀ dep, split_slash dep = [dep] →
               dependencyExists (categories (manifest opts)) dep = false).
Proof.
  eexists. split; [apply require_local_dependency_exists_reports|].
  split; [|split].
  - rewrite orUndefined_is_Some. split.
    + intros Hne. assert (List.filter
        (fun dep => negb (dependencyExists (categories (manifest opts)) dep))
        (localDependencies block) ≠ []) as Hf by (intros Hnil; by rewrite Hnil in Hne).
      apply filter_nil_iff in Hf as [dep [Hdep Hp]]. exists dep.
      split; [done|]. by apply negb_true_iff.
    + intros [dep [Hdep Hp]] Hnil. apply map_eq_nil in Hnil.
      revert Hnil. apply filter_nil_iff. exists dep. by rewrite Hp.
  - unfold orUndefined. destruct (List.filter _ _); simpl; [done|].
    by rewrite length_map.
  - intros dep Hsplit. unfold dependencyExists. rewrite Hsplit. simpl.
    by destruct (find _ _).
Qed.

Lemma find_ext_elem {A} (p q : A → bool) (xs : list A) :
  (∀ x, x ∈ xs → p x = q x) → find p xs = find q xs.
Proof.
  induction xs as [|x rest IH]; intros Hpq; simpl; [done|].
  rewrite (Hpq x) by left. destruct (q x); [done|].
  apply IH. intros y Hy. apply Hpq. by right.
Qed.

Lemma dependencyExists_findDepBlock cats dep :
  namesTrimmed cats = true →
  trim (categoryPart dep) = categoryPart dep →
  dependencyExists cats dep = true → is_Some (findDepBlock cats dep).
Proof.
  intros Hnames Hdep. unfold dependencyExists, findDepBlock, findCategory, categoryPart in *.
  destruct (destructure2 (split_slash dep)) as [depCategoryName depBlockName].
  simpl in Hdep. rewrite Hdep.
  rewrite (find_ext_elem _ (fun cat => String.eqb (cname cat) depCategoryName)).
  - destruct (find _ cats) as [cat|]; [|done].
    destruct (findBlock (blocks cat) depBlockName); [eauto|done].
  - intros cat Hcat. unfold namesTrimmed in Hnames.
    rewrite forallb_elem in Hnames. specialize (Hnames cat Hcat).
    apply eqb_true in Hnames. by rewrite Hnames.
Qed.

(** X2: where no category name and no dependency carries white space
    around the category, a block that [require-local-dependency-exists]
    passes has local dependencies that all resolve for [searchForDep]. *)
Theorem passing_dependencies_resolve `{Host} (block : Block) (opts : CheckOptions)
    (dep : string) :
  namesTrimmed (categories (manifest opts)) = true →
  check require_local_dependency_exists block opts = Returned None →
  dep ∈ localDependencies block →
  trim (categoryPart dep) = categoryPart dep →
  is_Some (findDepBlock (categories (manifest opts)) dep).
Proof.
  intros Hnames Hcheck Hdep Htrim.
  apply dependencyExists_findDepBlock; [done..|].
  destruct (dependencyExists (categories (manifest opts)) dep) eqn:Hex; [done|].
  rewrite require_local_dependency_exists_reports in Hcheck.
  injection Hcheck as Hnone.
  assert (is_Some (orUndefined
    (map (fun dep => bold (specifier block) +:+ " depends on local dependency "
                     +:+ bold dep +:+ " which doesn't exist")
         (List.filter (fun dep => negb (dependencyExists (categories (manifest opts)) dep))
                      (localDependencies block))))) as [? Hsome].
  { apply orUndefined_is_Some. intros Hnil. apply map_eq_nil in Hnil.
    revert Hnil. apply filter_nil_iff. exists dep. by rewrite Hex. }
  congruence.
Qed.

Lemma passing_dependencies_resolve_witness :
  namesTrimmed (categories mathDiamond) = true ∧
  check (H := plain) require_local_dependency_exists mathSum
        (plainOptions mathDiamond []) = Returned None ∧
  "math/mul" ∈ localDependencies mathSum ∧
  trim (categoryPart "math/mul") = categoryPart "math/mul" ∧
  is_Some (findDepBlock (categories mathDiamond) "math/mul").
Proof.
  assert (H1 : namesTrimmed (categories mathDiamond) = true) by reflexivity.
  assert (H2 : check (H := plain) require_local_dependency_exists mathSum
                 (plainOptions mathDiamond []) = Returned None) by reflexivity.
  assert (H3 : "math/mul" ∈ localDependencies mathSum) by (right; left).
  assert (H4 : trim (categoryPart "math/mul") = categoryPart "math/mul")
    by reflexivity.
  repeat (split; [assumption|]).
  exact (passing_dependencies_resolve (H := plain) mathSum
           (plainOptions mathDiamond []) "math/mul" H1 H2 H3 H4).
Defined.

(** With white space around a category name the two lookups part: the
    rule finds [" ui /button"] in the category ["ui "], [searchForDep]
    finds neither it nor ["ui/button"]. *)
Lemma trimmed_lookup_example :
  check (H := plain) require_local_dependency_exists looseForm (plainOptions loose [])
  = Returned (Some ["ui/form depends on local dependency ui/missing which doesn't exist";
                    "ui/form depends on local dependency button which doesn't exist"]) ∧
  findDepBlock (categories loose) " ui /button" = None ∧
  findDepBlock (categories loose) "ui/button" = None.
Proof. repeat split; reflexivity. Qed.

(** [trim] strips the white space of Unicode and only it: a no-break
    space, a line separator and a byte order mark go, a next-line control
    (U+0085) and a zero-width space (U+200B) stay, and with them the spaces
    behind them.  So a category named with a leading no-break space
    satisfies the rule for [ui/button], which [searchForDep] does not
    find. *)
Lemma trim_unicode_example :
  trim (nbsp +:+ " ui" +:+ utf8 [226; 128; 168; 239; 187; 191; 10]) = "ui" ∧
  trim (utf8 [194; 133; 32] +:+ "x" +:+ utf8 [32; 226; 128; 139])
  = utf8 [194; 133; 32] +:+ "x" +:+ utf8 [32; 226; 128; 139] ∧
  check (H := plain) require_local_dependency_exists paddedForm (plainOptions padded [])
  = Returned None ∧
  namesTrimmed (categories padded) = false ∧
  findDepBlock (categories padded) "ui/button" = None.
Proof. repeat split; reflexivity. Qed.

(** ** [no-framework-dependency] *)

Lemma parse_loop `{Host} (ds : list string) (names : list string) :
  forOf (fun d names =>
           match parsePackageName d with
           | Some n => Returned (names ++ [n])
           | None => Threw UnwrapError
           end) ds names
  = match mapM parsePackageName ds with
    | Some parsed => Returned (names ++ parsed)
    | None => Threw UnwrapError
    end.
Proof.
  revert names. induction ds as [|d rest IH]; intros names; simpl.
  { by rewrite app_nil_r. }
  destruct (parsePackageName d) as [n|]; simpl; [|done].
  rewrite IH. destruct (mapM parsePackageName rest); simpl; [|done].
  by rewrite <- app_assoc.
Qed.

(** X3: [no-framework-dependency] throws exactly when one of the block's
    dependencies or dev dependencies does not parse, a framework or not;
    when all parse it reports once for every one whose package name is in
    the list of frameworks, the dev dependencies first. *)
Theorem no_framework_dependency_exact `{Host} (block : Block) (opts : CheckOptions) :
  let all := devDependencies block ++ dependencies block in
  (check no_framework_dependency block opts = Threw UnwrapError ↔
   ∃ d, d ∈ all ∧ parsePackageName d = None) ∧
  (∀ names, mapM parsePackageName all = Some names →
     check no_framework_dependency block opts
     = Returned (orUndefined
         (map (fun d => bold (specifier block) +:+ " depends on " +:+ bold d
                        +:+ " causing it to be installed when added")
              (List.filter isFramework names)))).
Proof.
  intros all.
  assert (Hcheck : check no_framework_dependency block opts
    = match mapM parsePackageName all with
      | Some names =>
          Returned (orUndefined
            (map (fun d => bold (specifier block) +:+ " depends on " +:+ bold d
                           +:+ " causing it to be installed when added")
                 (List.filter isFramework names)))
      | None => Threw UnwrapError
      end).
  { cbn [check no_framework_dependency]. fold all. rewrite parse_loop.
    destruct (mapM parsePackageName all) as [names|]; simpl; [|done].
    do 2 f_equal.
    erewrite (foldl_collect_ext _ (fun _ => true)
               (fun d => bold (specifier block) +:+ " depends on " +:+ bold d
                         +:+ " causing it to be installed when added"));
      [|done].
    simpl. f_equal. induction (List.filter _ names) as [|x xs IH]; simpl; [done|].
    by f_equal. }
  split.
  - rewrite Hcheck. destruct (mapM parsePackageName all) as [names|] eqn:Hm.
    + split; [discriminate|]. intros [d [Hd Hnone]].
      apply mapM_Some_1 in Hm.
      apply list_elem_of_lookup in Hd as [i Hi].
      eapply Forall2_lookup_l in Hm as [n [_ Hn]]; [|exact Hi]. congruence.
    + split; [|done]. intros _. apply mapM_None_1 in Hm.
      apply Exists_exists in Hm as [d [Hd Hnone]]. exists d.
      by split.
  - intros names Hm. by rewrite Hcheck, Hm.
Qed.

(** The frameworks of [frameworkUser] are reported, the dev dependency
    first; [lodash] is not. *)
Lemma no_framework_dependency_example :
  check (H := plain) no_framework_dependency frameworkUser (plainOptions mathDiamond [])
  = Returned (Some
      ["ui/counter depends on @sveltejs/kit causing it to be installed when added";
       "ui/counter depends on react causing it to be installed when added"]).
Proof. reflexivity. Qed.

(** ** [max-local-dependencies] without a number *)

(** X5: without options, or with a string as first option, the limit of
    [max-local-dependencies] is 5: a block is reported exactly when it has
    more than five local dependencies. *)
Theorem max_local_dependencies_default `{Host} (block : Block) (m : Manifest)
    (cfg : RegistryConfig) (s : string) (rest : list OptionValue) :
  let verdict :=
    Returned
      (if 5 <? length (localDependencies block)
       then Some [bold (specifier block) +:+ " has too many local dependencies (" +:+
                  bold (showNat (length (localDependencies block))) +:+
                  ") limit (" +:+ bold "5" +:+ ")"]
       else None) in
  check max_local_dependencies block
        {| manifest := m; options := []; config := cfg |} = verdict ∧
  check max_local_dependencies block
        {| manifest := m; options := OptString s :: rest; config := cfg |} = verdict.
Proof.
  intros verdict. unfold verdict. simpl.
  rewrite Z.mul_1_r.
  assert ((5 <? Z.of_nat (length (localDependencies block)))%Z
          = (5 <? length (localDependencies block))) as ->.
  { destruct (5 <? length _) eqn:Hn.
    - apply Nat.ltb_lt in Hn. apply Z.ltb_lt. lia.
    - apply Nat.ltb_ge in Hn. apply Z.ltb_ge. lia. }
  by destruct (5 <? length _).
Qed.

(** Through [runRules]: a bare level leaves the limit at 5, the default
    configuration sets it to 10. *)
Lemma max_local_dependencies_levels_example :
  check (H := plain) max_local_dependencies sixDeps (plainOptions mathDiamond [])
  = Returned (Some ["ui/page has too many local dependencies (6) limit (5)"]) ∧
  check (H := plain) max_local_dependencies sixDeps
        (plainOptions mathDiamond (optionsOf (DEFAULT_CONFIG !! "max-local-dependencies")))
  = Returned None.
Proof. split; reflexivity. Qed.

(** ** More on [searchForDep] *)

(** X6: every path [searchForDep] returns is the chain it was given, the
    specifier of the start block, the specifiers of the blocks of the
    manifest it went down through, and after them the specifier searched
    for, as many times as it went down. *)
Theorem searchForDep_path_blocks cats search :
  ∀ stack block chain path,
    searchForDep stack search block cats chain = Returned (Some path) →
    ∃ hops,
      path = chain ++ [specifier block] ++ map specifier hops
             ++ repeat search (length hops) ∧
      Forall (fun hop => hop ∈ allBlocks cats) hops.
Proof.
  induction stack as [|stack IH]; intros block chain path; [discriminate|].
  rewrite searchForDep_unfold.
  generalize (localDependencies block) as deps.
  induction deps as [|dep rest IHdeps]; simpl; [discriminate|].
  destruct (String.eqb dep search).
  { intros [= <-]. by exists []. }
  destruct (existsb _ chain); [discriminate|].
  destruct (findDepBlock cats dep) as [depBlock|] eqn:Hfind; [|done].
  destruct (searchForDep stack search depBlock cats _) as [[found|]|e] eqn:Hrec;
    simpl; [|done|discriminate].
  intros [= <-]. destruct (IH _ _ _ Hrec) as [hops [-> Hhops]].
  exists (depBlock :: hops). split.
  - simpl. rewrite <- !app_assoc. simpl. do 3 f_equal.
    by rewrite <- app_assoc, repeat_cons.
  - constructor; [by eapply findDepBlock_elem|done].
Qed.

Lemma searchForDep_path_blocks_witness :
  searchForDep 8 "cat/a" cycleA (categories threeCycle) []
    = Returned (Some ["cat/a"; "cat/b"; "cat/c"; "cat/a"; "cat/a"]) ∧
  ∃ hops,
    ["cat/a"; "cat/b"; "cat/c"; "cat/a"; "cat/a"]
    = [] ++ [specifier cycleA] ++ map specifier hops
      ++ repeat "cat/a" (length hops) ∧
    Forall (fun hop => hop ∈ allBlocks (categories threeCycle)) hops.
Proof.
  assert (H1 : searchForDep 8 "cat/a" cycleA (categories threeCycle) []
               = Returned (Some ["cat/a"; "cat/b"; "cat/c"; "cat/a"; "cat/a"]))
    by reflexivity.
  split; [assumption|].
  exact (searchForDep_path_blocks (categories threeCycle) "cat/a" 8 cycleA [] _ H1).
Defined.

(** On a ranked manifest a block reaches only specifiers that rank below
    it, where they name a block. *)
Lemma reaches_ranks_below cats rank block target :
  depsNameTargets cats = true → ranked cats rank = true →
  block ∈ allBlocks cats → reaches cats block target →
  ∀ t, findDepBlock cats target = Some t →
       specifier t = target ∧ rank target < rank (specifier block).
Proof.
  intros Hnames Hranked Hblock Hreach. induction Hreach as
    [block target Hdirect|block dep depBlock target Hdep Hfind Hnext IH]; intros t Ht.
  - pose proof (depsNameTargets_spec _ _ _ _ Hnames Hblock Hdirect Ht) as Hspec.
    pose proof (ranked_spec _ _ _ _ _ Hranked Hblock Hdirect Ht) as Hrank.
    split; [done|]. by rewrite <- Hspec.
  - pose proof (ranked_spec _ _ _ _ _ Hranked Hblock Hdep Hfind) as Hrank.
    destruct (IH (findDepBlock_elem _ _ _ Hfind) t Ht) as [Hspec Hbelow].
    split; [done|]. lia.
Qed.

(** X7: where the manifest has no cycle [searchForDep] decides
    reachability: started from a block of the manifest with an empty
    chain it returns, and returns a path exactly when the block's
    transitive local-dependency closure reaches the specifier. *)
Theorem searchForDep_decides_reachability (cats : list Category)
    (rank : string → nat) (search : string) (block : Block) (stack : nat) :
  depsNameTargets cats = true →
  specifiersResolve cats = true →
  ranked cats rank = true →
  block ∈ allBlocks cats →
  2 * distinctSpecifiers cats ≤ stack →
  ∃ r, searchForDep stack search block cats [] = Returned r ∧
       (is_Some r ↔ reaches cats block search).
Proof.
  intros Hnames Hresolve Hranked Hblock Hstack.
  destruct (searchForDep_returns cats search block stack Hnames Hblock Hstack)
    as [r Hr].
  exists r. split; [done|]. split.
  - intros [path ->]. by eapply searchForDep_sound.
  - intros Hreach.
    eapply (searchForDep_complete cats rank Hnames Hresolve Hranked search stack block []);
      [done| |done|done].
    intros s Hs. inversion Hs.
Qed.

Lemma searchForDep_decides_reachability_witness :
  depsNameTargets (categories mathDiamond) = true ∧
  specifiersResolve (categories mathDiamond) = true ∧
  ranked (categories mathDiamond) diamondRank = true ∧
  mathSum ∈ allBlocks (categories mathDiamond) ∧
  2 * distinctSpecifiers (categories mathDiamond) ≤ 8 ∧
  ∃ r, searchForDep 8 "math/add" mathSum (categories mathDiamond) [] = Returned r ∧
       (is_Some r ↔ reaches (categories mathDiamond) mathSum "math/add").
Proof.
  assert (H1 : depsNameTargets (categories mathDiamond) = true) by reflexivity.
  assert (H2 : specifiersResolve (categories mathDiamond) = true) by reflexivity.
  assert (H3 : ranked (categories mathDiamond) diamondRank = true) by reflexivity.
  assert (H4 : mathSum ∈ allBlocks (categories mathDiamond)) by (right; right; left).
  assert (H5 : 2 * distinctSpecifiers (categories mathDiamond) ≤ 8)
    by (vm_compute; lia).
  repeat (split; [assumption|]).
  exact (searchForDep_decides_reachability (categories mathDiamond) diamondRank
           "math/add" mathSum 8 H1 H2 H3 H4 H5).
Defined.

(** ** [no-circular-dependency] *)

(** X8: [no-circular-dependency] reports no block without cause: when it
    reports, with one message, the block's transitive local-dependency
    closure reaches the block's own specifier, and the chain in the
    message starts at the block. *)
Theorem no_circular_dependency_sound `{Host} (stack : nat) (block : Block)
    (opts : CheckOptions) (errs : list string) :
  check (no_circular_dependency stack) block opts = Returned (Some errs) →
  reaches (categories (manifest opts)) block (specifier block) ∧
  ∃ chain, head chain = Some (specifier block) ∧
           errs = ["There is a circular dependency in " +:+ bold (specifier block)
                   +:+ ": " +:+ bold (join_with " -> " chain)].
Proof.
  simpl.
  destruct (searchForDep stack (specifier block) block _ []) as [[chain|]|e] eqn:Hsearch;
    simpl; [|discriminate..].
  intros [= <-]. split; [by eapply searchForDep_sound|].
  exists chain. split; [|done].
  apply searchForDep_path_shape in Hsearch as [hops ->]. done.
Qed.

Lemma no_circular_dependency_sound_witness :
  check (H := plain) (no_circular_dependency 8) cycleA (plainOptions threeCycle [])
    = Returned (Some ["There is a circular dependency in cat/a: " +:+
                      "cat/a -> cat/b -> cat/c -> cat/a -> cat/a"]) ∧
  reaches (categories threeCycle) cycleA (specifier cycleA) ∧
  ∃ chain, head chain = Some (specifier cycleA) ∧
           ["There is a circular dependency in cat/a: " +:+
            "cat/a -> cat/b -> cat/c -> cat/a -> cat/a"]
           = ["There is a circular dependency in "
              +:+ bold (Host := plain) (specifier cycleA)
              +:+ ": " +:+ bold (Host := plain) (join_with " -> " chain)].
Proof.
  assert (H1 : check (H := plain) (no_circular_dependency 8) cycleA
                 (plainOptions threeCycle [])
               = Returned (Some ["There is a circular dependency in cat/a: " +:+
                                 "cat/a -> cat/b -> cat/c -> cat/a -> cat/a"]))
    by reflexivity.
  split; [assumption|].
  exact (no_circular_dependency_sound (H := plain) 8 cycleA
           (plainOptions threeCycle []) _ H1).
Defined.

(** X9: on a manifest without a cycle [no-circular-dependency] reports
    none of its blocks. *)
Theorem no_circular_dependency_silent `{Host} (cats : list Category)
    (rank : string → nat) (stack : nat) (block : Block)
    (opts : list OptionValue) (cfg : RegistryConfig) :
  depsNameTargets cats = true →
  specifiersResolve cats = true →
  ranked cats rank = true →
  block ∈ allBlocks cats →
  2 * distinctSpecifiers cats ≤ stack →
  check (no_circular_dependency stack) block
        {| manifest := {| categories := cats |}; options := opts; config := cfg |}
  = Returned None.
Proof.
  intros Hnames Hresolve Hranked Hblock Hstack. simpl.
  destruct (searchForDep_returns cats (specifier block) block stack
              Hnames Hblock Hstack) as [[path|] Hr]; rewrite Hr; simpl; [|done].
  apply searchForDep_sound in Hr.
  destruct (specifiersResolve_spec cats block Hresolve Hblock) as [t Ht].
  destruct (reaches_ranks_below cats rank block (specifier block)
              Hnames Hranked Hblock Hr t Ht) as [_ Hlt]. lia.
Qed.

Lemma no_circular_dependency_silent_witness :
  depsNameTargets (categories mathDiamond) = true ∧
  specifiersResolve (categories mathDiamond) = true ∧
  ranked (categories mathDiamond) diamondRank = true ∧
  mathSum ∈ allBlocks (categories mathDiamond) ∧
  2 * distinctSpecifiers (categories mathDiamond) ≤ 8 ∧
  check (H := plain) (no_circular_dependency 8) mathSum
        {| manifest := {| categories := categories mathDiamond |}; options := [];
           config := plainConfig |}
  = Returned None.
Proof.
  assert (H1 : depsNameTargets (categories mathDiamond) = true) by reflexivity.
  assert (H2 : specifiersResolve (categories mathDiamond) = true) by reflexivity.
  assert (H3 : ranked (categories mathDiamond) diamondRank = true) by reflexivity.
  assert (H4 : mathSum ∈ allBlocks (categories mathDiamond)) by (right; right; left).
  assert (H5 : 2 * distinctSpecifiers (categories mathDiamond) ≤ 8)
    by (vm_compute; lia).
  repeat (split; [assumption|]).
  exact (no_circular_dependency_silent (H := plain) (categories mathDiamond)
           diamondRank 8 mathSum [] plainConfig H1 H2 H3 H4 H5).
Defined.

(** ** What [runRules] collects *)

Lemma flat_map_flat_map {A B C} (f : B → list C) (g : A → list B) (xs : list A) :
  flat_map f (flat_map g xs) = flat_map (fun x => flat_map f (g x)) xs.
Proof.
  induction xs as [|x rest IH]; simpl; [done|]. by rewrite flat_map_app, IH.
Qed.

(** One rule on one block: the report grows by the lines of the rule. *)
Lemma runRule_lines `{Host} m cfg ruleConfig block entry acc acc' :
  runRule m cfg ruleConfig block entry acc = Returned acc' →
  warnings acc' = warnings acc ++ warningsOf m cfg ruleConfig block entry ∧
  errors acc' = errors acc ++ errorsOf m cfg ruleConfig block entry.
Proof.
  destruct entry as [name rule]. unfold runRule, warningsOf, errorsOf. simpl.
  destruct (levelOf (ruleConfig !! name)) as [[| |]|];
    try (intros [= <-]; by rewrite !app_nil_r);
    destruct (check rule block _) as [[errs|]|e]; simpl;
    try discriminate; intros [= <-]; simpl; by rewrite ?app_nil_r.
Qed.

Lemma runRule_calm `{Host} m cfg ruleConfig block entry acc :
  (∃ acc', runRule m cfg ruleConfig block entry acc = Returned acc')
  ↔ calm m cfg ruleConfig block entry = true.
Proof.
  destruct entry as [name rule]. unfold runRule, calm. simpl.
  destruct (levelOf (ruleConfig !! name)) as [[| |]|];
    try (split; eauto; fail);
    destruct (check rule block _) as [[errs|]|e]; simpl;
    split; eauto; try discriminate; by intros [? [=]].
Qed.

Lemma rules_lines `{Host} m cfg ruleConfig block table :
  ∀ acc acc',
    forOf (runRule m cfg ruleConfig block) table acc = Returned acc' →
    warnings acc' = warnings acc ++ flat_map (warningsOf m cfg ruleConfig block) table ∧
    errors acc' = errors acc ++ flat_map (errorsOf m cfg ruleConfig block) table.
Proof.
  induction table as [|entry rest IH]; intros acc acc'; simpl.
  { intros [= <-]. by rewrite !app_nil_r. }
  destruct (runRule m cfg ruleConfig block entry acc) as [mid|e] eqn:Hstep;
    simpl; [|discriminate].
  intros Hrest. apply runRule_lines in Hstep as [Hw He].
  apply IH in Hrest as [Hw' He']. rewrite Hw', He', Hw, He.
  by rewrite <- !app_assoc.
Qed.

Lemma blocks_lines `{Host} m cfg ruleConfig table bs :
  ∀ acc acc',
    forOf (fun block acc => forOf (runRule m cfg ruleConfig block) table acc) bs acc
    = Returned acc' →
    warnings acc'
    = warnings acc
      ++ flat_map (fun block => flat_map (warningsOf m cfg ruleConfig block) table) bs ∧
    errors acc'
    = errors acc
      ++ flat_map (fun block => flat_map (errorsOf m cfg ruleConfig block) table) bs.
Proof.
  induction bs as [|block rest IH]; intros acc acc'; simpl.
  { intros [= <-]. by rewrite !app_nil_r. }
  destruct (forOf (runRule m cfg ruleConfig block) table acc) as [mid|e] eqn:Hstep;
    simpl; [|discriminate].
  intros Hrest. apply rules_lines in Hstep as [Hw He].
  apply IH in Hrest as [Hw' He']. rewrite Hw', He', Hw, He.
  by rewrite <- !app_assoc.
Qed.

Lemma categories_lines `{Host} m cfg ruleConfig table cats :
  ∀ acc acc',
    forOf (fun category acc =>
             forOf (fun block acc => forOf (runRule m cfg ruleConfig block) table acc)
                   (blocks category) acc) cats acc
    = Returned acc' →
    warnings acc'
    = warnings acc
      ++ flat_map (fun block => flat_map (warningsOf m cfg ruleConfig block) table)
                  (allBlocks cats) ∧
    errors acc'
    = errors acc
      ++ flat_map (fun block => flat_map (errorsOf m cfg ruleConfig block) table)
                  (allBlocks cats).
Proof.
  unfold allBlocks.
  induction cats as [|category rest IH]; intros acc acc'; simpl.
  { intros [= <-]. by rewrite !app_nil_r. }
  destruct (forOf _ (blocks category) acc) as [mid|e] eqn:Hstep; simpl; [|discriminate].
  intros Hrest. apply blocks_lines in Hstep as [Hw He].
  apply IH in Hrest as [Hw' He']. rewrite Hw', He', Hw, He, !flat_map_app.
  by rewrite <- !app_assoc.
Qed.

(** X10: the report of [runRules] is the messages of the checks in the
    order of the manifest's blocks and, for each block, of the table of
    rules, none dropped, merged or moved: those of the rules at level
    [error] in the errors, those of every other rule that is not [off]
    in the warnings. *)
Theorem runRules_report_in_order `{Host} (table : list (string * Rule))
    (m : Manifest) (cfg : RegistryConfig) (ruleConfig : gmap string RuleSetting)
    (r : Report) :
  runRulesWith table m cfg ruleConfig = Returned r →
  warnings r
  = flat_map (fun block => flat_map (warningsOf m cfg ruleConfig block) table)
             (allBlocks (categories m)) ∧
  errors r
  = flat_map (fun block => flat_map (errorsOf m cfg ruleConfig block) table)
             (allBlocks (categories m)).
Proof.
  intros Hrun. unfold runRulesWith in Hrun.
  by apply categories_lines in Hrun as [-> ->].
Qed.

Lemma runRules_report_in_order_witness :
  runRulesWith (H := plain) (rules 8) backEdge plainConfig ∅
  = Returned
      {| warnings :=
           ["|  WARN There is a circular dependency in cat/l: cat/l -> cat/m -> cat/l no-circular-dependency";
            "|  WARN There is a circular dependency in cat/m: cat/m -> cat/l -> cat/m no-circular-dependency";
            "|  WARN cat/u is unused and will be removed no-unused-block"];
         errors := [] |} ∧
  ["|  WARN There is a circular dependency in cat/l: cat/l -> cat/m -> cat/l no-circular-dependency";
   "|  WARN There is a circular dependency in cat/m: cat/m -> cat/l -> cat/m no-circular-dependency";
   "|  WARN cat/u is unused and will be removed no-unused-block"]
  = flat_map (fun block =>
                flat_map (warningsOf (H := plain) backEdge plainConfig ∅ block) (rules 8))
             (allBlocks (categories backEdge)) ∧
  [] = flat_map (fun block =>
                   flat_map (errorsOf (H := plain) backEdge plainConfig ∅ block) (rules 8))
                (allBlocks (categories backEdge)).
Proof.
  assert (H1 : runRulesWith (H := plain) (rules 8) backEdge plainConfig ∅
    = Returned
      {| warnings :=
           ["|  WARN There is a circular dependency in cat/l: cat/l -> cat/m -> cat/l no-circular-dependency";
            "|  WARN There is a circular dependency in cat/m: cat/m -> cat/l -> cat/m no-circular-dependency";
            "|  WARN cat/u is unused and will be removed no-unused-block"];
         errors := [] |}) by (vm_compute; reflexivity).
  split; [assumption|].
  exact (runRules_report_in_order (H := plain) (rules 8) backEdge plainConfig ∅ _ H1).
Defined.

Lemma forOf_returns_iff {A S} (body : A → S → outcome S) (ok : A → bool) (xs : list A) :
  (∀ x acc, (∃ acc', body x acc = Returned acc') ↔ ok x = true) →
  ∀ acc, (∃ acc', forOf body xs acc = Returned acc') ↔ forallb ok xs = true.
Proof.
  intros Hbody. induction xs as [|x rest IH]; intros acc; simpl.
  { split; eauto. }
  rewrite andb_true_iff, <- (Hbody x acc). split.
  - intros [acc' Hrun]. destruct (body x acc) as [mid|e] eqn:Hstep; [|discriminate].
    simpl in Hrun. split; [eauto|]. apply (IH mid). eauto.
  - intros [[mid Hstep] Hrest]. rewrite Hstep. simpl. by apply IH.
Qed.

Lemma calmOn_elem `{Host} m cfg ruleConfig table cats :
  calmOn m cfg ruleConfig table cats = true
  ↔ ∀ block entry, block ∈ allBlocks cats → entry ∈ table →
                   calm m cfg ruleConfig block entry = true.
Proof.
  unfold calmOn, allBlocks. rewrite forallb_elem. split.
  - intros Hall block entry Hblock Hentry.
    apply list_elem_of_In, in_flat_map in Hblock as [category [Hcat Hblock]].
    apply list_elem_of_In in Hcat, Hblock.
    specialize (Hall category Hcat). rewrite forallb_elem in Hall.
    specialize (Hall block Hblock). rewrite forallb_elem in Hall. by apply Hall.
  - intros Hall category Hcat. apply forallb_elem. intros block Hblock.
    apply forallb_elem. intros entry Hentry. apply Hall; [|done].
    apply list_elem_of_In, in_flat_map. exists category.
    split; by apply list_elem_of_In.
Qed.

Lemma runRulesWith_returns `{Host} (table : list (string * Rule))
    (m : Manifest) (cfg : RegistryConfig) (ruleConfig : gmap string RuleSetting) :
  (∃ r, runRulesWith table m cfg ruleConfig = Returned r)
  ↔ calmOn m cfg ruleConfig table (categories m) = true.
Proof.
  unfold runRulesWith, calmOn. apply forOf_returns_iff. intros category acc.
  apply (forOf_returns_iff _ (fun block => forallb (calm m cfg ruleConfig block) table)).
  intros block acc0. apply forOf_returns_iff. intros entry acc1. apply runRule_calm.
Qed.

(** X11: [runRules] returns its report exactly when every check it
    calls returns, and it calls the checks of the rules that are not
    [off], for every block: one check that throws for one block leaves
    the caller without any report. *)
Theorem runRules_returns_iff_checks_return `{Host} (table : list (string * Rule))
    (m : Manifest) (cfg : RegistryConfig) (ruleConfig : gmap string RuleSetting) :
  (∃ r, runRulesWith table m cfg ruleConfig = Returned r)
  ↔ ∀ block entry, block ∈ allBlocks (categories m) → entry ∈ table →
                   calm m cfg ruleConfig block entry = true.
Proof.
  unfold runRulesWith.
  rewrite (forOf_returns_iff _
    (fun category => forallb (fun block => forallb (calm m cfg ruleConfig block) table)
                             (blocks category))).
  - rewrite forallb_elem. unfold allBlocks. split.
    + intros Hall block entry Hblock Hentry.
      apply list_elem_of_In, in_flat_map in Hblock as [category [Hcat Hblock]].
      apply list_elem_of_In in Hcat, Hblock.
      specialize (Hall category Hcat). rewrite forallb_elem in Hall.
      specialize (Hall block Hblock). rewrite forallb_elem in Hall. by apply Hall.
    + intros Hall category Hcat. apply forallb_elem. intros block Hblock.
      apply forallb_elem. intros entry Hentry. apply Hall; [|done].
      apply list_elem_of_In, in_flat_map. exists category.
      split; by apply list_elem_of_In.
  - intros category acc.
    apply (forOf_returns_iff _ (fun block => forallb (calm m cfg ruleConfig block) table)).
    intros block acc0. apply forOf_returns_iff. intros entry acc1. apply runRule_calm.
Qed.

Lemma flat_map_filter_nil {A B} (f : A → list B) (p : A → bool) (xs : list A) :
  (∀ x, p x = false → f x = []) →
  flat_map f (List.filter p xs) = flat_map f xs.
Proof.
  intros Hf. induction xs as [|x rest IH]; simpl; [done|].
  destruct (p x) eqn:Hp; simpl; [by rewrite IH|]. by rewrite IH, (Hf x Hp).
Qed.

(** C9: a rule of the table that has no entry in the configuration is
    still executed by [runRules], and what it reports goes to the warnings
    and never to the errors.  For every such rule and every block of the
    manifest, a run that returns a report has called the rule's check on
    the block, with no options (had the check thrown, the run would have
    thrown); every message the check reported is in the warnings, as a
    warning line under the rule's name; the errors are those of the run
    without the rule; and the report is that of the run with the rule set
    to [warn]. *)
Theorem runRules_missing_entry_warns `{Host} (stack : nat) (m : Manifest)
    (cfg : RegistryConfig) (ruleConfig : gmap string RuleSetting) (name : string)
    (rule : Rule) (block : Block) (r : Report) :
  ruleConfig !! name = None →
  (name, rule) ∈ rules stack →
  block ∈ allBlocks (categories m) →
  runRules stack m cfg ruleConfig = Returned r →
  ∃ ruleErrors,
    check rule block {| manifest := m; options := []; config := cfg |}
    = Returned ruleErrors ∧
    (∀ err, err ∈ default [] ruleErrors → warnLine name err ∈ warnings r) ∧
    (∃ r', runRulesWith (without name (rules stack)) m cfg ruleConfig = Returned r' ∧
           errors r = errors r') ∧
    runRules stack m cfg (<[name := Level warn]> ruleConfig) = Returned r.
Proof.
  intros Hnone Hrule Hblock Hrun. unfold runRules in *.
  assert (∀ b entry, b ∈ allBlocks (categories m) → entry ∈ rules stack →
                     calm m cfg ruleConfig b entry = true) as Hcalm.
  { apply calmOn_elem, runRulesWith_returns. eauto. }
  pose proof (Hcalm block (name, rule) Hblock Hrule) as Hcalled.
  unfold calm in Hcalled. simpl in Hcalled. rewrite Hnone in Hcalled. simpl in Hcalled.
  destruct (check rule block {| manifest := m; options := []; config := cfg |})
    as [ruleErrors|e] eqn:Hcheck; [|discriminate].
  exists ruleErrors. split; [done|].
  pose proof Hrun as Hlines. unfold runRulesWith in Hlines.
  apply categories_lines in Hlines as [Hw He].
  cbn [warnings errors app] in Hw, He.
  split; [|split].
  - intros err Herr. rewrite Hw. apply list_elem_of_In, in_flat_map.
    exists block. split; [by apply list_elem_of_In|].
    apply in_flat_map. exists (name, rule). split; [by apply list_elem_of_In|].
    unfold warningsOf. simpl. rewrite Hnone. simpl. rewrite Hcheck.
    apply in_map. apply list_elem_of_In. by destruct ruleErrors.
  - destruct (proj2 (runRulesWith_returns (without name (rules stack)) m cfg ruleConfig))
      as [r' Hrun'].
    { apply calmOn_elem. intros b entry Hb Hentry. apply Hcalm; [done|].
      unfold without in Hentry. apply list_elem_of_In, filter_In in Hentry as [Hentry _].
      by apply list_elem_of_In. }
    exists r'. split; [done|].
    unfold runRulesWith in Hrun'. apply categories_lines in Hrun' as [_ He'].
    cbn [warnings errors app] in He'. rewrite He, He'.
    apply flat_map_ext. intros b. unfold without.
    symmetry. apply flat_map_filter_nil. intros [n r0] Hn. simpl in Hn.
    apply negb_false_iff, eqb_true in Hn. subst n.
    unfold errorsOf. simpl. by rewrite Hnone.
  - by rewrite <- runRulesWith_missing_entry.
Qed.

Lemma runRules_missing_entry_warns_witness :
  (∅ : gmap string RuleSetting) !! "no-circular-dependency" = None ∧
  ("no-circular-dependency", no_circular_dependency (H:=plain) 8) ∈ rules 8 ∧
  cycleA ∈ allBlocks (categories threeCycle) ∧
  runRules (H:=plain) 8 threeCycle plainConfig ∅
  = Returned
      {| warnings :=
           ["|  WARN There is a circular dependency in cat/a: cat/a -> cat/b -> cat/c -> cat/a -> cat/a no-circular-dependency";
            "|  WARN There is a circular dependency in cat/b: cat/b -> cat/c -> cat/a -> cat/b -> cat/b no-circular-dependency";
            "|  WARN There is a circular dependency in cat/c: cat/c -> cat/a -> cat/b -> cat/c -> cat/c no-circular-dependency"];
         errors := [] |} ∧
  ∃ ruleErrors,
    check (no_circular_dependency 8) cycleA (plainOptions threeCycle [])
    = Returned ruleErrors ∧
    (∀ err, err ∈ default [] ruleErrors →
            warnLine (H:=plain) "no-circular-dependency" err
            ∈ ["|  WARN There is a circular dependency in cat/a: cat/a -> cat/b -> cat/c -> cat/a -> cat/a no-circular-dependency";
               "|  WARN There is a circular dependency in cat/b: cat/b -> cat/c -> cat/a -> cat/b -> cat/b no-circular-dependency";
               "|  WARN There is a circular dependency in cat/c: cat/c -> cat/a -> cat/b -> cat/c -> cat/c no-circular-dependency"]) ∧
    (∃ r', runRulesWith (without "no-circular-dependency" (rules 8))
             threeCycle plainConfig ∅ = Returned r' ∧
           [] = errors r') ∧
    runRules 8 threeCycle plainConfig (<["no-circular-dependency" := Level warn]> ∅)
    = Returned
        {| warnings :=
             ["|  WARN There is a circular dependency in cat/a: cat/a -> cat/b -> cat/c -> cat/a -> cat/a no-circular-dependency";
              "|  WARN There is a circular dependency in cat/b: cat/b -> cat/c -> cat/a -> cat/b -> cat/b no-circular-dependency";
              "|  WARN There is a circular dependency in cat/c: cat/c -> cat/a -> cat/b -> cat/c -> cat/c no-circular-dependency"];
           errors := [] |}.
Proof.
  assert (H1 : (∅ : gmap string RuleSetting) !! "no-circular-dependency" = None)
    by reflexivity.
  assert (H2 : ("no-circular-dependency", no_circular_dependency (H:=plain) 8) ∈ rules 8)
    by (do 4 right; left).
  assert (H3 : cycleA ∈ allBlocks (categories threeCycle)) by left.
  assert (H4 : runRules (H:=plain) 8 threeCycle plainConfig ∅
    = Returned
      {| warnings :=
           ["|  WARN There is a circular dependency in cat/a: cat/a -> cat/b -> cat/c -> cat/a -> cat/a no-circular-dependency";
            "|  WARN There is a circular dependency in cat/b: cat/b -> cat/c -> cat/a -> cat/b -> cat/b no-circular-dependency";
            "|  WARN There is a circular dependency in cat/c: cat/c -> cat/a -> cat/b -> cat/c -> cat/c no-circular-dependency"];
         errors := [] |}) by (vm_compute; reflexivity).
  repeat (split; [assumption|]).
  exact (runRules_missing_entry_warns (H:=plain) 8 threeCycle plainConfig ∅
           "no-circular-dependency" (no_circular_dependency 8) cycleA _ H1 H2 H3 H4).
Defined.

Lemma flat_map_nil {A B} (f : A → list B) (xs : list A) :
  (∀ x, x ∈ xs → f x = []) → flat_map f xs = [].
Proof.
  induction xs as [|x rest IH]; intros Hf; simpl; [done|].
  rewrite (Hf x) by left. apply IH. intros y Hy. apply Hf. by right.
Qed.

(** X12: when no rule is configured at level [error], the errors of the
    report are empty, whatever the checks say. *)
Theorem runRules_no_error_level `{Host} (table : list (string * Rule))
    (m : Manifest) (cfg : RegistryConfig) (ruleConfig : gmap string RuleSetting)
    (r : Report) :
  noErrorLevel ruleConfig table = true →
  runRulesWith table m cfg ruleConfig = Returned r →
  errors r = [].
Proof.
  intros Hlevels Hrun.
  apply categories_lines in Hrun as [_ ->]. simpl.
  apply flat_map_nil. intros block _. apply flat_map_nil. intros entry Hentry.
  unfold noErrorLevel in Hlevels. rewrite forallb_elem in Hlevels.
  specialize (Hlevels entry Hentry). unfold errorsOf.
  by destruct (levelOf (ruleConfig !! entry.1)) as [[| |]|].
Qed.

Lemma runRules_no_error_level_witness :
  noErrorLevel (H := plain) ∅ (rules 8) = true ∧
  runRulesWith (H := plain) (rules 8) threeCycle plainConfig ∅
  = Returned
      {| warnings :=
           ["|  WARN There is a circular dependency in cat/a: cat/a -> cat/b -> cat/c -> cat/a -> cat/a no-circular-dependency";
            "|  WARN There is a circular dependency in cat/b: cat/b -> cat/c -> cat/a -> cat/b -> cat/b no-circular-dependency";
            "|  WARN There is a circular dependency in cat/c: cat/c -> cat/a -> cat/b -> cat/c -> cat/c no-circular-dependency"];
         errors := [] |} ∧
  errors
      {| warnings :=
           ["|  WARN There is a circular dependency in cat/a: cat/a -> cat/b -> cat/c -> cat/a -> cat/a no-circular-dependency";
            "|  WARN There is a circular dependency in cat/b: cat/b -> cat/c -> cat/a -> cat/b -> cat/b no-circular-dependency";
            "|  WARN There is a circular dependency in cat/c: cat/c -> cat/a -> cat/b -> cat/c -> cat/c no-circular-dependency"];
         errors := [] |} = [].
Proof.
  assert (H1 : noErrorLevel (H := plain) ∅ (rules 8) = true) by reflexivity.
  assert (H2 : runRulesWith (H := plain) (rules 8) threeCycle plainConfig ∅
    = Returned
      {| warnings :=
           ["|  WARN There is a circular dependency in cat/a: cat/a -> cat/b -> cat/c -> cat/a -> cat/a no-circular-dependency";
            "|  WARN There is a circular dependency in cat/b: cat/b -> cat/c -> cat/a -> cat/b -> cat/b no-circular-dependency";
            "|  WARN There is a circular dependency in cat/c: cat/c -> cat/a -> cat/b -> cat/c -> cat/c no-circular-dependency"];
         errors := [] |}) by (vm_compute; reflexivity).
  repeat (split; [assumption|]).
  exact (runRules_no_error_level (H := plain) (rules 8) threeCycle plainConfig ∅ _ H1 H2).
Defined.

(** X13: with every rule off [runRules] returns the empty report for
    every manifest and calls no check. *)
Theorem runRules_every_rule_off `{Host} (table : list (string * Rule))
    (m : Manifest) (cfg : RegistryConfig) (ruleConfig : gmap string RuleSetting) :
  everyRuleOff ruleConfig table = true →
  runRulesWith table m cfg ruleConfig = Returned {| warnings := []; errors := [] |}.
Proof.
  intros Hoff. unfold everyRuleOff in Hoff. rewrite forallb_elem in Hoff.
  assert (Hrules : ∀ block acc,
    forOf (runRule m cfg ruleConfig block) table acc = Returned acc).
  { intros block acc. revert Hoff.
    induction table as [|[name rule] rest IH]; intros Hoff; [done|].
    cbn [forOf]. rewrite runRule_off.
    - simpl. apply IH. intros entry Hentry. apply Hoff. by right.
    - specialize (Hoff (name, rule)). simpl in Hoff.
      destruct (levelOf (ruleConfig !! name)) as [[| |]|]; try done;
        by discriminate Hoff; left. }
  unfold runRulesWith. generalize ({| warnings := []; errors := [] |}).
  induction (categories m) as [|category rest IH]; intros acc; simpl; [done|].
  assert (forOf (fun block acc => forOf (runRule m cfg ruleConfig block) table acc)
                (blocks category) acc = Returned acc) as ->.
  { induction (blocks category) as [|block bs IHb]; simpl; [done|].
    by rewrite Hrules. }
  simpl. apply IH.
Qed.

Lemma runRules_every_rule_off_witness :
  everyRuleOff (H := plain) allOff (rules 0) = true ∧
  runRulesWith (H := plain) (rules 0) threeCycle plainConfig allOff
  = Returned {| warnings := []; errors := [] |}.
Proof.
  assert (H1 : everyRuleOff (H := plain) allOff (rules 0) = true) by reflexivity.
  split; [assumption|].
  exact (runRules_every_rule_off (H := plain) (rules 0) threeCycle plainConfig allOff H1).
Defined.

(** ** The update loop over the files of a block *)

(** The files are taken one after the other, and the first that ends
    the process ends the run. *)
Lemma updateFiles_app `{Collaborators} (opts : Options) (from to : File → string)
    (files later : list File) (s : Session) :
  updateFiles opts from to (files ++ later) s
  = match updateFiles opts from to files s with
    | Continue s' => updateFiles opts from to later s'
    | stop => stop
    end.
Proof.
  revert s. induction files as [|file rest IH]; intros s; simpl.
  { by destruct (updateFiles opts from to later s). }
  destruct (updateOneFile opts from to file s) as [s'| | |]; [apply IH|done..].
Qed.

Lemma updateOneFile_yes `{Collaborators} opts from to file s remote :
  yes opts = true → transformRemoteContent file = Some remote →
  updateOneFile opts from to file s
  = Continue {| disk := <[destPath file := remote]> (disk s); answers := answers s;
                log := log s ++ [WriteFile (destPath file) remote] |}.
Proof. intros Hyes Hremote. unfold updateOneFile. by rewrite Hremote, Hyes. Qed.

(** X15: with [--yes] every file is written with its transformed remote
    content, in order, no prompt is shown and no answer is used. *)
Theorem updateFiles_yes_writes_all `{Collaborators} (opts : Options)
    (from to : File → string) (files : list File) (contents : list string)
    (s : Session) :
  yes opts = true →
  mapM transformRemoteContent files = Some contents →
  updateFiles opts from to files s
  = Continue {| disk := store (disk s) files contents; answers := answers s;
                log := log s ++ writes files contents |}.
Proof.
  intros Hyes. revert contents s.
  induction files as [|file rest IH]; intros contents s Hm.
  { injection Hm as <-. simpl. destruct s. simpl. by rewrite app_nil_r. }
  simpl in Hm. destruct (transformRemoteContent file) as [remote|] eqn:Hremote;
    simpl in Hm; [|discriminate].
  destruct (mapM transformRemoteContent rest) as [others|] eqn:Hrest;
    simpl in Hm; [|discriminate].
  injection Hm as <-. simpl.
  rewrite (updateOneFile_yes _ _ _ _ _ remote) by done.
  rewrite (IH others) by done. unfold store, writes. simpl.
  by rewrite <- app_assoc.
Qed.

Lemma updateFiles_yes_writes_all_witness :
  yes yesToAll = true ∧
  mapM (transformRemoteContent (Collaborators := scripted))
       [buttonFile remoteAC; inputFile oneLine] = Some [remoteAC; oneLine] ∧
  updateFiles (H := scripted) yesToAll shownFrom shownTo
    [buttonFile remoteAC; inputFile oneLine]
    {| disk := onDisk localAB; answers := [Cancel]; log := [] |}
  = Continue {| disk := store (onDisk localAB) [buttonFile remoteAC; inputFile oneLine]
                              [remoteAC; oneLine];
                answers := [Cancel];
                log := [] ++ writes [buttonFile remoteAC; inputFile oneLine]
                                    [remoteAC; oneLine] |}.
Proof.
  assert (H1 : yes yesToAll = true) by reflexivity.
  assert (H2 : mapM (transformRemoteContent (Collaborators := scripted))
                 [buttonFile remoteAC; inputFile oneLine] = Some [remoteAC; oneLine])
    by reflexivity.
  repeat (split; [assumption|]).
  exact (updateFiles_yes_writes_all (H := scripted) yesToAll shownFrom shownTo
           [buttonFile remoteAC; inputFile oneLine] [remoteAC; oneLine]
           {| disk := onDisk localAB; answers := [Cancel]; log := [] |} H1 H2).
Defined.

Lemma review_no `{Collaborators} opts file from to fs local original answers remote log :
  yes opts = false → no opts = true →
  review opts file from to fs local original answers remote log
  = Continue (false, remote, answers, log).
Proof.
  intros Hyes Hno. destruct answers; simpl; rewrite Hyes, Hno;
    by destruct (asks local remote).
Qed.

(** X16: with [--no] and without [--yes] the loop over the files of a
    block (the review and write of each file, after the files were fetched
    and their directories made) only shows the diffs: whatever they hold,
    it writes no file and asks nothing, and leaves the files on disk, the
    pending answers and the record of prompts and writes as they were. *)
Theorem updateFiles_no_changes_nothing `{Collaborators} (opts : Options)
    (from to : File → string) (files : list File) (contents : list string)
    (s : Session) :
  yes opts = false →
  no opts = true →
  mapM transformRemoteContent files = Some contents →
  updateFiles opts from to files s = Continue s.
Proof.
  intros Hyes Hno. revert contents.
  induction files as [|file rest IH]; intros contents Hm; [done|].
  simpl in Hm. destruct (transformRemoteContent file) as [remote|] eqn:Hremote;
    simpl in Hm; [|discriminate].
  destruct (mapM transformRemoteContent rest) as [others|] eqn:Hrest;
    simpl in Hm; [|discriminate].
  simpl. unfold updateOneFile. rewrite Hremote, Hyes. simpl.
  rewrite review_no by done.
  assert ({| disk := disk s; answers := answers s; log := log s |} = s) as ->
    by (by destruct s).
  by apply (IH others).
Qed.

Lemma updateFiles_no_changes_nothing_witness :
  yes diffOnly = false ∧ no diffOnly = true ∧
  mapM (transformRemoteContent (Collaborators := scripted))
       [buttonFile remoteAC; inputFile oneLine] = Some [remoteAC; oneLine] ∧
  updateFiles (H := scripted) diffOnly shownFrom shownTo
    [buttonFile remoteAC; inputFile oneLine]
    {| disk := onDisk localAB; answers := [Choose "accept"]; log := [] |}
  = Continue {| disk := onDisk localAB; answers := [Choose "accept"]; log := [] |}.
Proof.
  assert (H1 : yes diffOnly = false) by reflexivity.
  assert (H2 : no diffOnly = true) by reflexivity.
  assert (H3 : mapM (transformRemoteContent (Collaborators := scripted))
                 [buttonFile remoteAC; inputFile oneLine] = Some [remoteAC; oneLine])
    by reflexivity.
  repeat (split; [assumption|]).
  exact (updateFiles_no_changes_nothing (H := scripted) diffOnly shownFrom shownTo
           [buttonFile remoteAC; inputFile oneLine] [remoteAC; oneLine]
           {| disk := onDisk localAB; answers := [Choose "accept"]; log := [] |}
           H1 H2 H3).
Defined.

(** The loop itself writes nothing: where it ends the process, the disk
    is the one it started with. *)
Lemma review_keeps_disk `{Collaborators} opts file from to fs local original :
  ∀ n answers remote log,
    length answers ≤ n →
    match review opts file from to fs local original answers remote log with
    | Continue _ => True
    | Exited s | Failed s | Awaiting s => disk s = fs
    end.
Proof.
  induction n as [|n IH]; intros answers remote log Hlen.
  { destruct answers; [|simpl in Hlen; lia]. simpl.
    destruct (asks local remote); [|done].
    by destruct (negb (yes opts) && negb (no opts)). }
  destruct answers as [|[|choice] rest]; simpl;
    (destruct (asks local remote); [|done]);
    (destruct (negb (yes opts) && negb (no opts)); [|done]); [done..|].
  destruct (String.eqb choice "update"); [|done].
  destruct rest as [|[|model] rest']; [done..|].
  simpl in Hlen. destruct (updateFile model _ _); apply IH; lia.
Qed.

Lemma updateOneFile_frame `{Collaborators} opts from to file s path :
  destPath file ≠ path →
  disk (sessionOf (updateOneFile opts from to file s)) !! path = disk s !! path.
Proof.
  intros Hpath. unfold updateOneFile.
  destruct (transformRemoteContent file) as [remote|]; [|done].
  destruct (negb (yes opts)).
  - pose proof (review_keeps_disk opts file (from file) (to file) (disk s)
                  (readLocal (disk s) file) remote (length (answers s))
                  (answers s) remote (log s) (le_n _)) as Hdisk.
    destruct (review _ _ _ _ _ _ _ _ _ _) as [[[[accepted text] answers'] log']|s'|s'|s'];
      simpl; [|by rewrite Hdisk..].
    destruct accepted; simpl; [by rewrite lookup_insert_ne|done].
  - destruct (yes opts); simpl; [by rewrite lookup_insert_ne|done].
Qed.

(** X17: the loop over the files of a block never writes to a path that
    is not the destination of one of these files: there the disk holds
    after the loop, however it ends, what it held before.  (What [_update]
    does after the loop, the installation of dependencies, is no part of
    it.) *)
Theorem updateFiles_frame `{Collaborators} (opts : Options) (from to : File → string)
    (files : list File) (s : Session) (path : string) :
  writesElsewhere path files = true →
  disk (sessionOf (updateFiles opts from to files s)) !! path = disk s !! path.
Proof.
  revert s. induction files as [|file rest IH]; intros s Hpaths; [done|].
  simpl in Hpaths. apply andb_true_iff in Hpaths as [Hfile Hrest].
  apply negb_true_iff, eqb_false in Hfile.
  pose proof (updateOneFile_frame opts from to file s path Hfile) as Hone.
  simpl. destruct (updateOneFile opts from to file s) as [s'|s'|s'|s']; simpl in *;
    [|done..].
  by rewrite IH.
Qed.

Lemma updateFiles_frame_witness :
  writesElsewhere "src/ui/label.ts" [buttonFile remoteAC; inputFile oneLine] = true ∧
  disk (sessionOf (updateFiles (H := scripted) interactive shownFrom shownTo
                     [buttonFile remoteAC; inputFile oneLine]
                     {| disk := <["src/ui/label.ts" := "export {};"]> (onDisk localAB);
                        answers := [Choose "accept"; Cancel]; log := [] |}))
    !! "src/ui/label.ts"
  = disk {| disk := <["src/ui/label.ts" := "export {};"]> (onDisk localAB);
            answers := [Choose "accept"; Cancel]; log := [] |} !! "src/ui/label.ts".
Proof.
  assert (H1 : writesElsewhere "src/ui/label.ts" [buttonFile remoteAC; inputFile oneLine]
               = true) by reflexivity.
  split; [assumption|].
  exact (updateFiles_frame (H := scripted) interactive shownFrom shownTo
           [buttonFile remoteAC; inputFile oneLine]
           {| disk := <["src/ui/label.ts" := "export {};"]> (onDisk localAB);
              answers := [Choose "accept"; Cancel]; log := [] |}
           "src/ui/label.ts" H1).
Defined.

Lemma review_cancelled `{Collaborators} opts file from to fs local original
    answers remote log :
  yes opts = false → no opts = false → asks local remote = true →
  review opts file from to fs local original (Cancel :: answers) remote log
  = Exited {| disk := fs; answers := answers;
              log := log ++ [Prompt "Accept changes?"] |} ∧
  review opts file from to fs local original (Choose "update" :: Cancel :: answers)
         remote log
  = Exited {| disk := fs; answers := answers;
              log := (log ++ [Prompt "Accept changes?"]) ++ [Prompt "Select a model"] |}.
Proof. intros Hyes Hno Hasks. simpl. by rewrite Hasks, Hyes, Hno. Qed.

(** X18: a cancel at the prompt for the decision or at the prompt for the
    model, at once or after any rounds of AI rewrites, exits the process
    there: the file and the files after it are not written, and the disk
    is what the files before it left. *)
Theorem updateFiles_cancel_exits `{Collaborators} (opts : Options)
    (from to : File → string) (file : File) (later : list File)
    (fs : gmap string string) (past : list Event) (rest : list Answer)
    (remote : string) (models : list string) (candidate : string)
    (events : list Event) :
  yes opts = false →
  no opts = false →
  transformRemoteContent file = Some remote →
  rewritten file (from file) (to file) (readLocal fs file) remote models remote
    = Some (candidate, events) →
  asks (readLocal fs file) candidate = true →
  updateFiles opts from to (file :: later)
    {| disk := fs; answers := rewriteAnswers models ++ Cancel :: rest; log := past |}
  = Exited {| disk := fs; answers := rest;
              log := (past ++ events) ++ [Prompt "Accept changes?"] |} ∧
  updateFiles opts from to (file :: later)
    {| disk := fs;
       answers := rewriteAnswers models ++ Choose "update" :: Cancel :: rest;
       log := past |}
  = Exited {| disk := fs; answers := rest;
              log := ((past ++ events) ++ [Prompt "Accept changes?"])
                     ++ [Prompt "Select a model"] |}.
Proof.
  intros Hyes Hno Hremote Hrounds Hasks.
  destruct (review_cancelled opts file (from file) (to file) fs (readLocal fs file)
              remote rest candidate (past ++ events) Hyes Hno Hasks) as [Hfirst Hsecond].
  cbn [updateFiles]. unfold updateOneFile. rewrite Hremote, Hyes.
  cbn [negb disk answers log].
  rewrite !(review_rounds _ _ _ _ _ _ _ Hyes Hno _ _ _ _ _ _ Hrounds).
  by rewrite Hfirst, Hsecond.
Qed.

Lemma updateFiles_cancel_exits_witness :
  yes interactive = false ∧ no interactive = false ∧
  transformRemoteContent (Collaborators := scripted) fileAC = Some remoteAC ∧
  rewritten (H := scripted) fileAC (shownFrom fileAC) (shownTo fileAC)
            (readLocal (onDisk localAB) fileAC) remoteAC sonnet remoteAC
    = Some (remoteAC, oneRound) ∧
  asks (H := scripted) (readLocal (onDisk localAB) fileAC) remoteAC = true ∧
  updateFiles (H := scripted) interactive shownFrom shownTo [fileAC; inputFile oneLine]
    {| disk := onDisk localAB; answers := rewriteAnswers sonnet ++ Cancel :: [];
       log := [] |}
  = Exited {| disk := onDisk localAB; answers := [];
              log := ([] ++ oneRound) ++ [Prompt "Accept changes?"] |} ∧
  updateFiles (H := scripted) interactive shownFrom shownTo [fileAC; inputFile oneLine]
    {| disk := onDisk localAB;
       answers := rewriteAnswers sonnet ++ Choose "update" :: Cancel :: [];
       log := [] |}
  = Exited {| disk := onDisk localAB; answers := [];
              log := (([] ++ oneRound) ++ [Prompt "Accept changes?"])
                     ++ [Prompt "Select a model"] |}.
Proof.
  assert (H1 : yes interactive = false) by reflexivity.
  assert (H2 : no interactive = false) by reflexivity.
  assert (H3 : transformRemoteContent (Collaborators := scripted) fileAC = Some remoteAC)
    by reflexivity.
  assert (H4 : rewritten (H := scripted) fileAC (shownFrom fileAC) (shownTo fileAC)
                 (readLocal (onDisk localAB) fileAC) remoteAC sonnet remoteAC
               = Some (remoteAC, oneRound)) by reflexivity.
  assert (H5 : asks (H := scripted) (readLocal (onDisk localAB) fileAC) remoteAC = true)
    by reflexivity.
  repeat (split; [assumption|]).
  exact (updateFiles_cancel_exits (H := scripted) interactive shownFrom shownTo fileAC
           [inputFile oneLine] (onDisk localAB) [] [] remoteAC sonnet remoteAC oneRound
           H1 H2 H3 H4 H5).
Defined.

(** What the last of the rounds leaves as candidate: its rewrite when it
    succeeds, whatever the rounds before it gave. *)
Lemma rewritten_last `{Collaborators} file from to local original models model :
  ∀ remote candidate events text,
    rewritten file from to local original (models ++ [model]) remote
      = Some (candidate, events) →
    updateFile model (local, to) (original, from) = Some text →
    candidate = formatFile text (destPath file).
Proof.
  induction models as [|first rest IH]; intros remote candidate events text; simpl.
  - destruct (asks local remote); [|discriminate]. intros Hrun Htext.
    rewrite Htext in Hrun. by injection Hrun as <- _.
  - destruct (asks local remote); [|discriminate].
    destruct (updateFile first _ _) as [t|];
      (destruct (rewritten _ _ _ _ _ (rest ++ [model]) _) as [[c ev]|] eqn:Hrest;
       [|discriminate]);
      intros [= <- _] Htext; by eapply IH.
Qed.

(** X19: every round of AI rewrite starts again from the local content
    and the original remote content, never from the rewrite before it:
    after any rounds, when the last one succeeds, [accept] writes the
    formatted text of that last rewrite. *)
Theorem update_writes_last_rewrite `{Collaborators} (opts : Options)
    (from to : File → string) (file : File) (fs : gmap string string)
    (past : list Event) (rest : list Answer) (remote : string)
    (models : list string) (model : string) (candidate text : string)
    (events : list Event) :
  yes opts = false →
  no opts = false →
  transformRemoteContent file = Some remote →
  rewritten file (from file) (to file) (readLocal fs file) remote (models ++ [model])
            remote = Some (candidate, events) →
  updateFile model (readLocal fs file, to file) (remote, from file) = Some text →
  asks (readLocal fs file) (formatFile text (destPath file)) = true →
  disk (sessionOf (updateOneFile opts from to file
          {| disk := fs;
             answers := rewriteAnswers (models ++ [model]) ++ Choose "accept" :: rest;
             log := past |}))
  = <[destPath file := formatFile text (destPath file)]> fs.
Proof.
  intros Hyes Hno Hremote Hrounds Htext Hasks.
  pose proof (rewritten_last _ _ _ _ _ _ _ _ _ _ _ Hrounds Htext) as ->.
  unfold updateOneFile. rewrite Hremote, Hyes. cbn [negb disk answers log].
  rewrite (review_rounds _ _ _ _ _ _ _ Hyes Hno _ _ _ _ _ _ Hrounds).
  by rewrite review_decides.
Qed.

Lemma update_writes_last_rewrite_witness :
  yes interactive = false ∧ no interactive = false ∧
  transformRemoteContent (Collaborators := scripted) fileAC = Some remoteAC ∧
  rewritten (H := scripted) fileAC (shownFrom fileAC) (shownTo fileAC)
            (readLocal (onDisk localAB) fileAC) remoteAC ([] ++ sonnet) remoteAC
    = Some (remoteAC, oneRound) ∧
  updateFile (Collaborators := scripted) "Claude 3.5 Sonnet"
             (readLocal (onDisk localAB) fileAC, shownTo fileAC)
             (remoteAC, shownFrom fileAC) = Some remoteAC ∧
  asks (H := scripted) (readLocal (onDisk localAB) fileAC)
       (formatFile (Collaborators := scripted) remoteAC (destPath fileAC)) = true ∧
  disk (sessionOf (updateOneFile (H := scripted) interactive shownFrom shownTo fileAC
          {| disk := onDisk localAB;
             answers := rewriteAnswers ([] ++ ["Claude 3.5 Sonnet"])
                        ++ Choose "accept" :: [];
             log := [] |}))
  = <[destPath fileAC := formatFile (Collaborators := scripted) remoteAC (destPath fileAC)]>
      (onDisk localAB).
Proof.
  assert (H1 : yes interactive = false) by reflexivity.
  assert (H2 : no interactive = false) by reflexivity.
  assert (H3 : transformRemoteContent (Collaborators := scripted) fileAC = Some remoteAC)
    by reflexivity.
  assert (H4 : rewritten (H := scripted) fileAC (shownFrom fileAC) (shownTo fileAC)
                 (readLocal (onDisk localAB) fileAC) remoteAC ([] ++ sonnet) remoteAC
               = Some (remoteAC, oneRound)) by reflexivity.
  assert (H5 : updateFile (Collaborators := scripted) "Claude 3.5 Sonnet"
                 (readLocal (onDisk localAB) fileAC, shownTo fileAC)
                 (remoteAC, shownFrom fileAC) = Some remoteAC) by reflexivity.
  assert (H6 : asks (H := scripted) (readLocal (onDisk localAB) fileAC)
                 (formatFile (Collaborators := scripted) remoteAC (destPath fileAC))
               = true) by reflexivity.
  repeat (split; [assumption|]).
  exact (update_writes_last_rewrite (H := scripted) interactive shownFrom shownTo fileAC
           (onDisk localAB) [] [] remoteAC [] "Claude 3.5 Sonnet" remoteAC remoteAC
           oneRound H1 H2 H3 H4 H5 H6).
Defined.

(** ** The dependencies a run asks for *)

Lemma setAdd_elem dep set x : x ∈ setAdd dep set ↔ x = dep ∨ x ∈ set.
Proof.
  unfold setAdd. case_bool_decide as Hin.
  - split; [by right|]. intros [->|]; done.
  - rewrite elem_of_app, list_elem_of_singleton. tauto.
Qed.

Lemma setAdd_NoDup dep set : NoDup set → NoDup (setAdd dep set).
Proof.
  intros Hset. unfold setAdd. case_bool_decide as Hin; [done|].
  apply NoDup_app. split; [done|]. split.
  - intros x Hx Hd. apply list_elem_of_singleton in Hd as ->. done.
  - apply NoDup_singleton.
Qed.

Lemma setAdd_all_elem new set x :
  x ∈ foldl (fun set dep => setAdd dep set) set new ↔ x ∈ set ∨ x ∈ new.
Proof.
  revert set. induction new as [|dep rest IH]; intros set; simpl.
  - split; [by left|]. intros [|Hx]; [done|inversion Hx].
  - rewrite IH, setAdd_elem, elem_of_cons. tauto.
Qed.

Lemma setAdd_all_NoDup new set :
  NoDup set → NoDup (foldl (fun set dep => setAdd dep set) set new).
Proof.
  revert set. induction new as [|dep rest IH]; intros set Hset; simpl; [done|].
  by apply IH, setAdd_NoDup.
Qed.

Lemma vitest_elem (includeTests hasTests vitestMissing : bool) (set : list string) d :
  d ∈ (if includeTests && hasTests
       then if vitestMissing then setAdd "vitest" set else set
       else set)
  ↔ d ∈ set ∨
    (d = "vitest" ∧ includeTests = true ∧ vitestMissing = true ∧ hasTests = true).
Proof.
  destruct includeTests, hasTests, vitestMissing; simpl; rewrite ?setAdd_elem;
    intuition congruence.
Qed.

Lemma wantBlocks_from includeTests vitestMissing bs :
  ∀ w, NoDup (depsSet w) → NoDup (devDepsSet w) →
    let w' := foldl (wantBlock includeTests vitestMissing) w bs in
    NoDup (depsSet w') ∧ NoDup (devDepsSet w') ∧
    (∀ d, d ∈ depsSet w' ↔ d ∈ depsSet w ∨ ∃ b, b ∈ bs ∧ d ∈ dependencies b) ∧
    (∀ d, d ∈ devDepsSet w' ↔
          d ∈ devDepsSet w ∨
          (∃ b, b ∈ bs ∧ d ∈ devDependencies b) ∨
          (d = "vitest" ∧ includeTests = true ∧ vitestMissing = true ∧
           ∃ b, b ∈ bs ∧ tests b = true)).
Proof.
  induction bs as [|block rest IH]; intros w Hdeps Hdev; simpl.
  { repeat split; try done; try tauto.
    - intros [|[b [Hb _]]]; [done|inversion Hb].
    - intros [|[[b [Hb _]]|[_ [_ [_ [b [Hb _]]]]]]]; [done|inversion Hb..]. }
  set (w1 := wantBlock includeTests vitestMissing w block).
  assert (Hdeps1 : NoDup (depsSet w1)) by (by apply setAdd_all_NoDup).
  assert (Hdev1 : NoDup (devDepsSet w1)).
  { apply setAdd_all_NoDup.
    destruct (includeTests && tests block); [|done].
    destruct vitestMissing; [by apply setAdd_NoDup|done]. }
  destruct (IH w1 Hdeps1 Hdev1) as [Hn [Hn' [Hd Hd']]].
  split; [done|]. split; [done|]. split.
  - intros d. rewrite Hd. unfold w1. simpl. rewrite setAdd_all_elem.
    setoid_rewrite elem_of_cons. split.
    + intros [[|]|[b [Hb Hin]]]; eauto.
    + intros [|[b [[->|Hb] Hin]]]; eauto.
  - intros d. rewrite Hd'. unfold w1. simpl. rewrite setAdd_all_elem.
    rewrite vitest_elem. setoid_rewrite elem_of_cons.
    split; intros Hcase; decompose [or and ex] Hcase; subst; eauto 10.
Qed.

(** X20: a package that several blocks depend on is asked for once: the
    dependencies and the dev dependencies a run collects hold no
    duplicate, and they hold exactly what a block of the run declares,
    with [vitest] among the dev dependencies also when tests are
    included, a block has tests and [package.json] does not declare it. *)
Theorem wantBlocks_union (includeTests vitestMissing : bool) (bs : list Block) :
  let w := wantBlocks includeTests vitestMissing bs in
  NoDup (depsSet w) ∧ NoDup (devDepsSet w) ∧
  (∀ d, d ∈ depsSet w ↔ ∃ b, b ∈ bs ∧ d ∈ dependencies b) ∧
  (∀ d, d ∈ devDepsSet w ↔
        (∃ b, b ∈ bs ∧ d ∈ devDependencies b) ∨
        (d = "vitest" ∧ includeTests = true ∧ vitestMissing = true ∧
         ∃ b, b ∈ bs ∧ tests b = true)).
Proof.
  destruct (wantBlocks_from includeTests vitestMissing bs {| depsSet := []; devDepsSet := [] |})
    as [Hn [Hn' [Hd Hd']]]; [apply NoDup_nil_2..|].
  split; [done|]. split; [done|]. split.
  - intros d. unfold wantBlocks. rewrite (Hd d). simpl. split; [|eauto].
    intros [Hnil|]; [inversion Hnil|done].
  - intros d. unfold wantBlocks. rewrite (Hd' d). simpl. split; [|eauto].
    intros [Hnil|]; [inversion Hnil|done].
Qed.

Lemma wantBlocks_example :
  wantBlocks true true [chartBlock; tableBlock]
  = {| depsSet := ["d3@7.0.0"; "lodash@4.17.21"];
       devDepsSet := ["vitest"; "typescript@5.0.0"] |}.
Proof. reflexivity. Qed.

(** ** Installing the dependencies *)

(** What [installBoth] adds to [invoked]: the dependencies or the dev
    dependencies, and none of the two when it is empty. *)
Lemma installBoth_invoked installDependencies (w : Wanted) (run : Installation) :
  ∀ (dev : bool) (packages : list string),
    (dev, packages) ∈ invoked (stateOf run (installBoth installDependencies w run)) →
    (dev, packages) ∈ invoked run ∨
    (packages ≠ [] ∧ packages = if dev then devDepsSet w else depsSet w).
Proof.
  intros dev packages. unfold installBoth, invoke.
  destruct (depsSet w) as [|d ds], (devDepsSet w) as [|e es]; simpl;
    repeat match goal with
    | |- context [installDependencies ?b ?l] => destruct (installDependencies b l); simpl
    end;
    rewrite ?elem_of_app, ?elem_of_cons, ?elem_of_nil; intros Hin;
    decompose [or] Hin; try contradiction; simplify_eq; eauto.
Qed.

(** Two installers that do the same on the lists that are not empty make
    the same step. *)
Lemma installBoth_ext installDependencies other (w : Wanted) (run : Installation) :
  (∀ dev packages, packages ≠ [] → other dev packages = installDependencies dev packages) →
  installBoth other w run = installBoth installDependencies w run.
Proof.
  intros Hsame. unfold installBoth, invoke.
  destruct (depsSet w) as [|d ds]; simpl.
  - destruct (devDepsSet w) as [|e es]; simpl; [done|]. by rewrite Hsame.
  - rewrite (Hsame false (d :: ds)) by done.
    destruct (installDependencies false (d :: ds)); [|done].
    destruct (devDepsSet w) as [|e es]; simpl; [done|]. by rewrite Hsame.
Qed.

(** X21: the dependencies are installed only with consent: if the
    package manager is run at all, [--yes] was given or, without [--no],
    the user answered yes at the prompt; with [--no] and without [--yes]
    nothing is asked and nothing installed; and the package manager is
    never run on an empty list: each of its calls is given the
    dependencies or the dev dependencies, not empty, and what it would do
    on an empty list changes nothing of the step. *)
Theorem installStep_needs_consent (installDependencies : bool → list string → bool)
    (opts : Options) (w : Wanted) (replies : list Reply) :
  let nothing := {| asked := false; invoked := []; remaining := replies |} in
  let run := stateOf nothing (installStep installDependencies opts w replies) in
  (invoked run ≠ [] →
   yes opts = true ∨ (no opts = false ∧ ∃ rest, replies = Said true :: rest)) ∧
  (yes opts = false → no opts = true →
   installStep installDependencies opts w replies = Done nothing) ∧
  (∀ (dev : bool) (packages : list string), (dev, packages) ∈ invoked run →
     packages ≠ [] ∧ packages = if dev then devDepsSet w else depsSet w) ∧
  (∀ other : bool → list string → bool,
     (∀ dev packages, packages ≠ [] →
                      other dev packages = installDependencies dev packages) →
     installStep other opts w replies = installStep installDependencies opts w replies).
Proof.
  intros nothing run. unfold run, installStep.
  destruct ((0 <? length (depsSet w)) || (0 <? length (devDepsSet w))).
  2: { split; [done|]. split; [done|]. split; [|done].
       intros dev packages Hin. inversion Hin. }
  destruct (yes opts) eqn:Hyes; simpl.
  { split; [by left|]. split; [done|]. split.
    - intros dev packages Hin.
      destruct (installBoth_invoked installDependencies w nothing dev packages Hin)
        as [Hnone|]; [inversion Hnone|done].
    - intros other Hsame. by apply installBoth_ext. }
  destruct (no opts) eqn:Hno; simpl.
  { split; [done|]. split; [done|]. split; [|done].
    intros dev packages Hin. inversion Hin. }
  split; [|split; [done|split]].
  - destruct replies as [|[|[|]|text] rest]; simpl; try done. intros _. right. eauto.
  - intros dev packages Hin.
    destruct replies as [|[|[|]|text] rest]; simpl in Hin; try (by inversion Hin).
    set (start := {| asked := true; invoked := []; remaining := rest |}) in *.
    assert (invoked (stateOf start (installBoth installDependencies w start))
            = invoked (stateOf nothing (installBoth installDependencies w start))) as Heq.
    { by destruct (installBoth installDependencies w start). }
    rewrite <- Heq in Hin.
    destruct (installBoth_invoked installDependencies w start dev packages Hin)
      as [Hnone|]; [inversion Hnone|done].
  - intros other Hsame.
    destruct replies as [|[|[|]|text] rest]; try done. by apply installBoth_ext.
Qed.

(** With [--yes], only [vitest] to install and a package manager that
    fails: it is run once, on the dev dependencies, and never on the empty
    dependencies. *)
Lemma installStep_example :
  installStep failing yesToAll onlyVitest []
  = Quit {| asked := false; invoked := [(true, ["vitest"])]; remaining := [] |}.
Proof. reflexivity. Qed.

(** ** [auth --logout] *)

Lemma length_append (a b : string) :
  String.length (a +:+ b) = String.length a + String.length b.
Proof. induction a as [|c a IH]; simpl; [done|]. by rewrite IH. Qed.

(** Two providers have two token keys. *)
Lemma tokenKey_inj p q : tokenKey p = tokenKey q → p = q.
Proof.
  unfold tokenKey. revert q. induction p as [|c p IH]; intros [|d q]; simpl; [done|..].
  - intros Heq. apply (f_equal String.length) in Heq.
    rewrite !length_append in Heq. simpl in Heq. lia.
  - intros Heq. apply (f_equal String.length) in Heq.
    rewrite !length_append in Heq. simpl in Heq. lia.
  - intros [= -> Heq]. f_equal. by apply IH.
Qed.

Lemma logoutEach_only_deletes ps :
  ∀ storage replies,
    match logoutEach ps storage replies with
    | Done (final, _) | Quit (final, _) | Unanswered (final, _) =>
        (∀ k v, final !! k = Some v → storage !! k = Some v) ∧
        (∀ k, (∀ p, p ∈ ps → k ≠ tokenKey p) → final !! k = storage !! k)
    | Crashed => False
    end.
Proof.
  induction ps as [|p rest IH]; intros storage replies; simpl; [done|].
  assert (Hrest : ∀ k, (∀ q, q ∈ p :: rest → k ≠ tokenKey q) →
                       ∀ q, q ∈ rest → k ≠ tokenKey q)
    by (intros k Hk q Hq; apply Hk; by right).
  assert (Hdeleted : ∀ final : gmap string string,
    ((∀ k v, final !! k = Some v → delete (tokenKey p) storage !! k = Some v) ∧
     (∀ k, (∀ q, q ∈ rest → k ≠ tokenKey q) →
           final !! k = delete (tokenKey p) storage !! k)) →
    (∀ k v, final !! k = Some v → storage !! k = Some v) ∧
    (∀ k, (∀ q, q ∈ p :: rest → k ≠ tokenKey q) → final !! k = storage !! k)).
  { intros final [Hsub Hframe]. split.
    - intros k v Hk. apply Hsub in Hk. apply lookup_delete_Some in Hk. tauto.
    - intros k Hk. rewrite Hframe by (by apply Hrest).
      apply lookup_delete_ne. intros Heq. apply (Hk p); [by left|done]. }
  assert (Hkept : ∀ final : gmap string string,
    ((∀ k v, final !! k = Some v → storage !! k = Some v) ∧
     (∀ k, (∀ q, q ∈ rest → k ≠ tokenKey q) → final !! k = storage !! k)) →
    (∀ k v, final !! k = Some v → storage !! k = Some v) ∧
    (∀ k, (∀ q, q ∈ p :: rest → k ≠ tokenKey q) → final !! k = storage !! k)).
  { intros final [Hsub Hframe]. split; [done|]. intros k Hk. by apply Hframe, Hrest. }
  destruct (storage !! tokenKey p) as [t|] eqn:Htoken.
  - destruct replies as [|[|[|]|text] replies']; simpl; try done.
    + specialize (IH (delete (tokenKey p) storage) replies').
      destruct (logoutEach rest _ replies') as [[final left]|[final left]|[final left]|];
        [| | |done]; by apply Hdeleted.
    + specialize (IH storage replies').
      destruct (logoutEach rest _ replies') as [[final left]|[final left]|[final left]|];
        [| | |done]; by apply Hkept.
  - specialize (IH storage replies).
    destruct (logoutEach rest _ replies) as [[final left]|[final left]|[final left]|];
      [| | |done]; by apply Hkept.
Qed.

(** X22: a logout only deletes, and only tokens of the providers that
    take one: every entry left in the store was there before with the same
    value, every key that is not the token key of such a provider is as
    it was, and so is the token of the custom-domain provider; this holds
    however the logout ends. *)
Theorem auth_logout_only_deletes (providers : list string) (http : string)
    (options : AuthOptions) (storage : gmap string string) (replies : list Reply) :
  logout options = true →
  let final :=
    (stateOf (storage, replies) (_auth providers http options storage replies)).1 in
  (∀ k v, final !! k = Some v → storage !! k = Some v) ∧
  (∀ k, (∀ p, p ∈ providers → p ≠ http → k ≠ tokenKey p) →
        final !! k = storage !! k) ∧
  final !! tokenKey http = storage !! tokenKey http.
Proof.
  intros Hlogout final. unfold final, _auth. rewrite Hlogout.
  assert (Hauth : ∀ p, p ∈ authProviders providers http ↔ p ∈ providers ∧ p ≠ http).
  { intros p. unfold authProviders. rewrite !list_elem_of_In, filter_In.
    by rewrite negb_true_iff, eqb_false. }
  pose proof (logoutEach_only_deletes (authProviders providers http) storage replies)
    as Hrun.
  destruct (logoutEach _ storage replies) as [[end_ left]|[end_ left]|[end_ left]|];
    [| | |done]; simpl; destruct Hrun as [Hsub Hframe].
  all: split; [done|]; split.
  all: try (intros k Hk; apply Hframe; intros p Hp; apply Hauth in Hp; apply Hk; tauto).
  all: apply Hframe; intros p Hp Heq; apply Hauth in Hp as [_ Hne];
    apply tokenKey_inj in Heq; congruence.
Qed.

Lemma auth_logout_only_deletes_witness :
  logout {| token := None; provider := None; logout := true |} = true ∧
  (∀ k v,
     (stateOf (someTokens, [Said true; Canceled])
        (_auth registryProviders "http"
               {| token := None; provider := None; logout := true |}
               someTokens [Said true; Canceled])).1 !! k = Some v →
     someTokens !! k = Some v) ∧
  (∀ k, (∀ p, p ∈ registryProviders → p ≠ "http" → k ≠ tokenKey p) →
     (stateOf (someTokens, [Said true; Canceled])
        (_auth registryProviders "http"
               {| token := None; provider := None; logout := true |}
               someTokens [Said true; Canceled])).1 !! k = someTokens !! k) ∧
  (stateOf (someTokens, [Said true; Canceled])
     (_auth registryProviders "http"
            {| token := None; provider := None; logout := true |}
            someTokens [Said true; Canceled])).1 !! tokenKey "http"
  = someTokens !! tokenKey "http".
Proof.
  assert (H1 : logout {| token := None; provider := None; logout := true |} = true)
    by reflexivity.
  split; [assumption|].
  exact (auth_logout_only_deletes registryProviders "http"
           {| token := None; provider := None; logout := true |}
           someTokens [Said true; Canceled] H1).
Defined.

Lemma logoutEach_confirmed ps :
  ∀ storage n, length ps ≤ n →
    ∃ final rest,
      logoutEach ps storage (repeat (Said true) n) = Done (final, rest) ∧
      ∀ p, p ∈ ps → final !! tokenKey p = None.
Proof.
  induction ps as [|p rest IH]; intros storage n Hn; simpl.
  { eexists _, _. split; [done|]. intros p Hp. inversion Hp. }
  simpl in Hn.
  assert (Hkeep : ∀ storage' replies final left,
    logoutEach rest storage' replies = Done (final, left) →
    storage' !! tokenKey p = None → final !! tokenKey p = None).
  { intros storage' replies final left Hrun Hnone.
    pose proof (logoutEach_only_deletes rest storage' replies) as Hsub.
    rewrite Hrun in Hsub. destruct Hsub as [Hsub _].
    destruct (final !! tokenKey p) as [v|] eqn:Hv; [|done].
    apply Hsub in Hv. congruence. }
  destruct (storage !! tokenKey p) as [t|] eqn:Htoken.
  - destruct n as [|n]; [lia|]. simpl.
    destruct (IH (delete (tokenKey p) storage) n) as [final [left [Hrun Hgone]]]; [lia|].
    exists final, left. split; [done|]. intros q Hq.
    apply elem_of_cons in Hq as [->|Hq]; [|by apply Hgone].
    eapply Hkeep; [done|]. apply lookup_delete_eq.
  - destruct (IH storage n) as [final [left [Hrun Hgone]]]; [lia|].
    exists final, left. split; [done|]. intros q Hq.
    apply elem_of_cons in Hq as [->|Hq]; [|by apply Hgone].
    by eapply Hkeep.
Qed.

(** X23: a logout that is confirmed for every provider runs to its end
    and leaves no token of a provider that takes one. *)
Theorem auth_logout_confirmed (providers : list string) (http : string)
    (options : AuthOptions) (storage : gmap string string) (n : nat) :
  logout options = true →
  length providers ≤ n →
  ∃ final rest,
    _auth providers http options storage (repeat (Said true) n) = Done (final, rest) ∧
    ∀ p, p ∈ providers → p ≠ http → final !! tokenKey p = None.
Proof.
  intros Hlogout Hn. unfold _auth. rewrite Hlogout.
  destruct (logoutEach_confirmed (authProviders providers http) storage n)
    as [final [rest [Hrun Hgone]]].
  { unfold authProviders. pose proof (List.filter_length_le
      (fun p => negb (String.eqb p http)) providers). lia. }
  exists final, rest. split; [done|]. intros p Hp Hne. apply Hgone.
  unfold authProviders. rewrite list_elem_of_In, filter_In, <- list_elem_of_In.
  by rewrite negb_true_iff, eqb_false.
Qed.

Lemma auth_logout_confirmed_witness :
  logout {| token := None; provider := None; logout := true |} = true ∧
  length registryProviders ≤ 5 ∧
  ∃ final rest,
    _auth registryProviders "http" {| token := None; provider := None; logout := true |}
          someTokens (repeat (Said true) 5) = Done (final, rest) ∧
    ∀ p, p ∈ registryProviders → p ≠ "http" → final !! tokenKey p = None.
Proof.
  assert (H1 : logout {| token := None; provider := None; logout := true |} = true)
    by reflexivity.
  assert (H2 : length registryProviders ≤ 5) by (simpl; lia).
  repeat (split; [assumption|]).
  exact (auth_logout_confirmed registryProviders "http"
           {| token := None; provider := None; logout := true |} someTokens 5 H1 H2).
Defined.

(** ** [auth] with a token *)

(** X24: with more than one provider that takes a token the token is
    stored under the key of the provider chosen at the prompt, whatever
    [--provider] says, and the other keys keep their values; a token given
    with [--token] is stored as it is, an empty one too, while an empty
    token pasted at the prompt exits and stores nothing. *)
Theorem auth_stores_under_chosen_provider (providers : list string) (http : string)
    (flag : option string) (storage : gmap string string) (replies : list Reply)
    (chosen given pasted : string) :
  1 < length (authProviders providers http) →
  pasted ≠ "" →
  _auth providers http {| token := Some given; provider := flag; logout := false |}
        storage (Typed chosen :: replies)
  = Done (<[tokenKey chosen := given]> storage, replies) ∧
  _auth providers http {| token := None; provider := flag; logout := false |}
        storage (Typed chosen :: Typed pasted :: replies)
  = Done (<[tokenKey chosen := pasted]> storage, replies) ∧
  _auth providers http {| token := None; provider := flag; logout := false |}
        storage (Typed chosen :: Typed "" :: replies)
  = Quit (storage, replies) ∧
  (<[tokenKey chosen := given]> storage) !! tokenKey chosen = Some given ∧
  (∀ k, k ≠ tokenKey chosen →
        (<[tokenKey chosen := given]> storage) !! k = storage !! k).
Proof.
  intros Hmany Hpasted. unfold _auth. simpl.
  apply Nat.ltb_lt in Hmany. rewrite Hmany. simpl.
  apply eqb_false in Hpasted. rewrite Hpasted.
  repeat split; [apply lookup_insert_eq|].
  intros k Hk. by apply lookup_insert_ne.
Qed.

Lemma auth_stores_under_chosen_provider_witness :
  1 < length (authProviders registryProviders "http") ∧
  "ghp_new" ≠ "" ∧
  _auth registryProviders "http"
        {| token := Some ""; provider := Some "gitlab"; logout := false |}
        someTokens (Typed "github" :: [])
  = Done (<[tokenKey "github" := ""]> someTokens, []) ∧
  _auth registryProviders "http"
        {| token := None; provider := Some "gitlab"; logout := false |}
        someTokens (Typed "github" :: Typed "ghp_new" :: [])
  = Done (<[tokenKey "github" := "ghp_new"]> someTokens, []) ∧
  _auth registryProviders "http"
        {| token := None; provider := Some "gitlab"; logout := false |}
        someTokens (Typed "github" :: Typed "" :: [])
  = Quit (someTokens, []) ∧
  (<[tokenKey "github" := ""]> someTokens) !! tokenKey "github" = Some "" ∧
  (∀ k, k ≠ tokenKey "github" →
        (<[tokenKey "github" := ""]> someTokens) !! k = someTokens !! k).
Proof.
  assert (H1 : 1 < length (authProviders registryProviders "http"))
    by (vm_compute; lia).
  assert (H2 : "ghp_new" ≠ "") by discriminate.
  repeat (split; [assumption|]).
  exact (auth_stores_under_chosen_provider registryProviders "http" (Some "gitlab")
           someTokens [] "github" "" "ghp_new" H1 H2).
Defined.

(** ** [init]: the directories of a registry *)

Lemma askDirs_grows :
  ∀ n replies dirs, length replies ≤ n →
    match askDirs dirs replies with
    | Done (dirs', _) => dirs `prefix_of` dirs' ∧ dirs' ≠ []
    | Quit (dirs', _) | Unanswered (dirs', _) => dirs `prefix_of` dirs'
    | Crashed => False
    end.
Proof.
  assert (Hstep : ∀ (dirs : list string) (response : string) (dirs' : list string),
            (dirs ++ [response]) `prefix_of` dirs' → dirs `prefix_of` dirs').
  { intros dirs response dirs' Hpre. etransitivity; [|done]. by apply prefix_app_r. }
  induction n as [|n IH]; intros replies dirs Hlen.
  { destruct replies; [|simpl in Hlen; lia]. simpl. reflexivity. }
  destruct replies as [|reply rest]; [simpl; reflexivity|]. simpl in Hlen. simpl.
  destruct dirs as [|dir dirs]; simpl.
  - destruct reply as [|response|response]; simpl; try reflexivity.
    assert (Hrest : length rest ≤ n) by lia.
    specialize (IH rest [response] Hrest).
    destruct (askDirs [response] rest) as [[dirs' left]|[dirs' left]|[dirs' left]|];
      [|apply prefix_nil..|done].
    split; [apply prefix_nil|tauto].
  - destruct reply as [|[|]|response]; simpl; try reflexivity.
    + destruct rest as [|[|response|response] rest']; simpl; try reflexivity.
      simpl in Hlen. assert (Hrest : length rest' ≤ n) by lia.
      specialize (IH rest' ((dir :: dirs) ++ [response]) Hrest).
      change (dir :: dirs ++ [response]) with ((dir :: dirs) ++ [response]).
      destruct (askDirs _ rest') as [[dirs' left]|[dirs' left]|[dirs' left]|];
        [| | |done].
      * destruct IH as [Hpre Hne]. split; [by eapply Hstep|done].
      * by eapply Hstep.
      * by eapply Hstep.
    + split; [reflexivity|done].
Qed.

(** X25: the loop that asks for the blocks directories keeps the
    directories the registry configuration had, in front and in order,
    and does not end before there is at least one directory. *)
Theorem askDirs_keeps_and_has_one (dirs : list string) (replies : list Reply) :
  match askDirs dirs replies with
  | Done (dirs', _) => dirs `prefix_of` dirs' ∧ dirs' ≠ []
  | Quit (dirs', _) | Unanswered (dirs', _) => dirs `prefix_of` dirs'
  | Crashed => False
  end.
Proof. by apply (askDirs_grows (length replies)). Qed.

Lemma askDirs_example :
  askDirs [] [Typed "./src"; Said true; Typed "./lib"; Said false; Said true]
  = Done (["./src"; "./lib"], [Said true]) ∧
  askDirs ["./blocks"] [Said false] = Done (["./blocks"], []).
Proof. split; reflexivity. Qed.
